(** * PyPoly: polynomials over complex coefficients (src/pypoly/polynomials.c)

    A shallow embedding of the C code and the properties of its operators.

    Conventions of the embedding.
    - [int] is [Z]; degrees stay far from the limits of [int], so no
      wrap-around is written out.
    - [double] is the carrier of the class [Double]: the code only uses
      [+ - * / ==], unary minus and the conversion from [int].  [Binary64]
      is the arithmetic of C's [double]; a theorem stated for every [Double]
      holds of it.  [ExactField] is an idealisation, arithmetic without
      rounding, underflow or overflow, which the source adopts in words ("We
      ignore double precision related errors", above [complex_iszero]);
      [Binary64] does not satisfy it, and the runs on [Binary64] at the end
      show where the code leaves it.  [QcDouble], the canonical rationals, is
      an instance of [ExactField], used to run the code without rounding.
    - A [Polynomial] is the struct [{ int deg; Complex *coef; }]: [coef] is
      [None] for the NULL pointer and [Some l] for an allocated block whose
      slots are [l].
    - [calloc] serves every request for a non-negative number of slots; a
      negative count, converted to [size_t], is a request it refuses.
    - An operator that writes its result through a pointer and returns 1 or 0
      is a function to [option Polynomial]: [None] is the return value 0, after
      which the destination is not to be used. *)

From Stdlib Require Import ZArith List Bool Lia Ring Field QArith Qcanon Lqa.
From Stdlib Require Floats Uint63.
Import ListNotations.

Local Open Scope Z_scope.

(** ** The scalar type *)

Class Double := {
  double : Type;
  d0 : double;
  d1 : double;
  dadd : double -> double -> double;
  dsub : double -> double -> double;
  dneg : double -> double;
  dmul : double -> double -> double;
  ddiv : double -> double -> double;
  deqb : double -> double -> bool;
  d_of_int : Z -> double
}.

Declare Scope double_scope.
Delimit Scope double_scope with D.
Bind Scope double_scope with double.
Notation "x + y" := (dadd x y) : double_scope.
Notation "x - y" := (dsub x y) : double_scope.
Notation "x * y" := (dmul x y) : double_scope.
Notation "x / y" := (ddiv x y) : double_scope.
Notation "- x" := (dneg x) : double_scope.
Notation "x == y" := (deqb x y) (at level 70, no associativity) : double_scope.

(** Exact arithmetic: a field in which a sum of two squares vanishes only
    when both terms do, with an exact test of equality.  It is an
    idealisation of [double], the one the source adopts in its comment above
    [complex_iszero]: [Binary64], the arithmetic of C's [double], is not an
    instance.  What is proved under [ExactField] is proved of the code run in
    exact arithmetic; what is proved for every [Double] holds on [Binary64]
    as well. *)
Class ExactField (D : Double) : Prop := {
  d_field : field_theory d0 d1 dadd dmul dsub dneg ddiv (fun x => ddiv d1 x) eq;
  d_sumsq : forall x y : double, (x * x + y * y)%D = d0 -> x = d0 /\ y = d0;
  d_eqb_eq : forall x y : double, (x == y)%D = true <-> x = y;
  d_of_int_pos : forall n : Z, 0 < n -> d_of_int n <> d0
}.

Section Complex_numbers.
Context {D : Double}.

Record Complex := mkComplex { real : double; imag : double }.

Definition CZero : Complex := {| real := d0; imag := d0 |}.
Definition COne : Complex := {| real := d1; imag := d0 |}.

Definition complex_iszero (c : Complex) : bool :=
  (real c == d0)%D && (imag c == d0)%D.

Definition complex_add (a b : Complex) : Complex :=
  {| real := real a + real b; imag := imag a + imag b |}%D.

Definition complex_sub (a b : Complex) : Complex :=
  {| real := real a - real b; imag := imag a - imag b |}%D.

Definition complex_neg (z : Complex) : Complex :=
  {| real := - real z; imag := - imag z |}%D.

Definition complex_mult (a b : Complex) : Complex :=
  {| real := real a * real b - imag a * imag b;
     imag := real a * imag b + imag a * real b |}%D.

(** [complex_div] sets [errno = EDOM] when [d == 0.] and then returns its
    local [r] without having written it: [None] stands for that branch. *)
Definition complex_div (a b : Complex) : option Complex :=
  let d := (real b * real b + imag b * imag b)%D in
  if (d == d0)%D then None
  else Some {| real := (real a * real b + imag a * imag b) / d;
               imag := (imag a * real b - real a * imag b) / d |}%D.

End Complex_numbers.

(** What a run of [poly_div] ends in: its result, or the loop still running
    when the fuel is spent, or the use of the value [complex_div] returns on
    its [EDOM] branch. *)
Inductive run (A : Type) : Type :=
| Ret (a : A)
| OutOfFuel
| Indeterminate.
Arguments Ret {A} a.
Arguments OutOfFuel {A}.
Arguments Indeterminate {A}.

(** ** Polynomials *)

Section Polynomials.
Context {D : Double}.

Record Polynomial := mkPoly { deg : Z; coef : option (list Complex) }.

(** The slots of the block [coef] points to (none behind NULL). *)
Definition slots (P : Polynomial) : list Complex :=
  match coef P with Some l => l | None => [] end.

(** [P->coef[i]], read.  Every read of the code is at an index of [0..deg];
    outside the block the model answers [CZero] where C leaves the read
    undefined. *)
Definition coef_at (P : Polynomial) (i : Z) : Complex :=
  nth (Z.to_nat i) (slots P) CZero.

(** [l[i] = c] inside a block; no slot is written outside it. *)
Fixpoint store (l : list Complex) (i : nat) (c : Complex) : list Complex :=
  match l, i with
  | [], _ => []
  | _ :: l', O => c :: l'
  | x :: l', S i' => x :: store l' i' c
  end.

(** [P->coef[i] = c]. *)
Definition set_slot (P : Polynomial) (i : Z) (c : Complex) : Polynomial :=
  {| deg := deg P;
     coef := option_map (fun l => store l (Z.to_nat i) c) (coef P) |}.

(** [for (i = lo; ...; ++i) body], run for [n] rounds. *)
Fixpoint for_loop {S : Type} (n : nat) (i : Z) (body : Z -> S -> S) (s : S) : S :=
  match n with
  | O => s
  | S n' => for_loop n' (i + 1) body (body i s)
  end.

(** [for (i = 0; i <= hi; ++i) body]. *)
Definition for_upto {S : Type} (hi : Z) (body : Z -> S -> S) (s : S) : S :=
  for_loop (Z.to_nat (hi + 1)) 0 body s.

(** [for (i = hi; i >= 0; --i) body]. *)
Fixpoint for_downto {S : Type} (n : nat) (body : Z -> S -> S) (s : S) : S :=
  match n with
  | O => s
  | S n' => for_downto n' body (body (Z.of_nat n') s)
  end.

(** Modelled from the spec: the macro [Poly_GetCoef] of polynomials.h, which
    is not among the sources; "coefficient-at-index (zero if out of range)". *)
Definition Poly_GetCoef (P : Polynomial) (i : Z) : Complex :=
  if (i <? 0) || (deg P <? i) then CZero else coef_at P i.

(** Modelled from the spec: the macro [Poly_LeadCoef] of polynomials.h, which
    is not among the sources; "coefficient at the current degree index". *)
Definition Poly_LeadCoef (P : Polynomial) : Complex := coef_at P (deg P).

(** The loop of [Poly_Resize] started with [deg = n - 1]: the degree it
    stops at. *)
Fixpoint resize_from (l : list Complex) (n : nat) : Z :=
  match n with
  | O => -1
  | S m => if complex_iszero (nth m l CZero) then resize_from l m else Z.of_nat m
  end.

(** [while (P->deg != -1 && complex_iszero(P->coef[P->deg])) --P->deg;]
    No operator hands out a degree below -1, from which the loop of the code
    would read in front of the block. *)
Definition Poly_Resize (P : Polynomial) : Polynomial :=
  {| deg := resize_from (slots P) (Z.to_nat (deg P + 1)); coef := coef P |}.

Definition poly_init (d : Z) : option Polynomial :=
  if d =? -1 then Some {| deg := -1; coef := None |}
  else if d <? -1 then None
  else Some {| deg := d; coef := Some (repeat CZero (Z.to_nat (d + 1))) |}.

(** [free(P->coef); P->coef = NULL;] *)
Definition poly_free (P : Polynomial) : Polynomial :=
  {| deg := deg P; coef := None |}.

Definition poly_set_coef (P : Polynomial) (i : Z) (c : Complex) : Polynomial :=
  let P1 := set_slot P i c in
  if (deg P1 <? i) && negb (complex_iszero c)
  then {| deg := i; coef := coef P1 |}
  else Poly_Resize P1.

Definition poly_initX : option Polynomial :=
  match poly_init 1 with
  | None => None
  | Some P => Some (poly_set_coef P 1 COne)
  end.

(** Modelled from the spec: the macro [Poly_InitConst] of polynomials.h, which
    is not among the sources; "a degree-0 polynomial holding constant c
    (degree -1 if c is zero, by normalization)". *)
Definition Poly_InitConst (c : Complex) : option Polynomial :=
  match poly_init 0 with
  | None => None
  | Some P => Some (poly_set_coef P 0 c)
  end.

(** The shortcut [if (P == Q) return 1;] compares addresses; on one and the
    same polynomial the loop below gives the same answer. *)
Definition poly_equal (P Q : Polynomial) : bool :=
  if negb (deg P =? deg Q) then false
  else forallb
         (fun i => negb (negb (real (coef_at P i) == real (coef_at Q i))%D
                         || negb (imag (coef_at P i) == imag (coef_at Q i))%D))
         (map Z.of_nat (seq 0 (Z.to_nat (deg P + 1)))).

Definition poly_eval (P : Polynomial) (c : Complex) : Complex :=
  for_downto (Z.to_nat (deg P + 1))
    (fun i result => complex_add (complex_mult result c) (coef_at P i)) CZero.

(** [memcpy(P->coef, src, n * sizeof(Complex))]. *)
Definition memcpy (P : Polynomial) (src : list Complex) (n : Z) : Polynomial :=
  {| deg := deg P;
     coef := option_map (fun dst => firstn (Z.to_nat n) src ++ skipn (Z.to_nat n) dst)
                        (coef P) |}.

Definition poly_copy (A : Polynomial) : option Polynomial :=
  match poly_init (deg A) with
  | None => None
  | Some P => Some (memcpy P (slots A) (deg A + 1))
  end.

Definition poly_add (A B : Polynomial) : option Polynomial :=
  match poly_init (Z.max (deg A) (deg B)) with
  | None => None
  | Some R =>
      Some (Poly_Resize
              (for_upto (Z.max (deg A) (deg B))
                 (fun i R => set_slot R i (complex_add (Poly_GetCoef A i) (Poly_GetCoef B i)))
                 R))
  end.

Definition poly_sub (A B : Polynomial) : option Polynomial :=
  match poly_init (Z.max (deg A) (deg B)) with
  | None => None
  | Some R =>
      Some (Poly_Resize
              (for_upto (Z.max (deg A) (deg B))
                 (fun i R => set_slot R i (complex_sub (Poly_GetCoef A i) (Poly_GetCoef B i)))
                 R))
  end.

Definition poly_neg (A : Polynomial) : option Polynomial :=
  match poly_init (deg A) with
  | None => None
  | Some Q =>
      Some (for_upto (deg A)
              (fun i Q => set_slot Q i (complex_neg (coef_at A i))) Q)
  end.

(** [(R->coef[i]).real += tmp.real; (R->coef[i]).imag += tmp.imag;] *)
Definition accumulate (R : Polynomial) (i : Z) (tmp : Complex) : Polynomial :=
  set_slot R i {| real := real (coef_at R i) + real tmp;
                  imag := imag (coef_at R i) + imag tmp |}%D.

Definition poly_multiply (A B : Polynomial) : option Polynomial :=
  match poly_init (deg A + deg B) with
  | None => None
  | Some R =>
      Some (for_upto (deg A + deg B)
              (fun i R =>
                 for_upto i
                   (fun j R =>
                      accumulate R i
                        (complex_mult (Poly_GetCoef A j) (Poly_GetCoef B (i - j))))
                   R)
              R)
  end.

(** [while (--n > 0) { multiply R by A into T; free R; *R = T; }], for the
    [m] rounds it makes. *)
Fixpoint pow_loop (m : nat) (A R : Polynomial) : option Polynomial :=
  match m with
  | O => Some R
  | S m' =>
      match poly_multiply R A with
      | None => None
      | Some T => pow_loop m' A T
      end
  end.

(** [n] is an [unsigned int]; the literal [(Complex){1, 0}] is the pair of
    the doubles 1 and 0. *)
Definition poly_pow (A : Polynomial) (n : nat) : option Polynomial :=
  match n with
  | O => Poly_InitConst {| real := d1; imag := d0 |}
  | S m =>
      match poly_copy A with
      | Some R => pow_loop m A R
      | None => None
      end
  end.

Definition poly_derive (A : Polynomial) : option Polynomial :=
  match poly_init (Z.max (-1) (deg A - 1)) with
  | None => None
  | Some R =>
      Some (for_upto (deg A - 1)
              (fun i R =>
                 set_slot R i
                   (complex_mult {| real := d_of_int (i + 1); imag := d0 |}
                                 (coef_at A (i + 1))))
              R)
  end.

(** ** Euclidean division *)

(** The return value of [poly_div] and the contents of [*Q] and [*R] when it
    returns; [Qout] is [None] when the caller passed [Q == NULL]. *)
Record div_state := mkDiv { ret : Z; Qout : option Polynomial; Rout : Polynomial }.

(** [poly_init(P, d)] with its return value dropped: a refused allocation
    leaves [coef] NULL and [deg] as it was. *)
Definition init_or (P : Polynomial) (d : Z) : Polynomial :=
  match poly_init d with
  | Some P' => P'
  | None => poly_free P
  end.

(** The label [error]: what is still allocated is released, 0 is returned. *)
Definition div_error (Q : option Polynomial) (R : Polynomial) : div_state :=
  {| ret := 0; Qout := option_map poly_free Q; Rout := poly_free R |}.

(** [if (Q != NULL) { add T1 to Q into T2; free Q; copy T2 to Q; free T2; }]:
    [inl] is the jump to [error] with the contents of [*Q] at that point. *)
Definition div_quotient (Q : option Polynomial) (T1 : Polynomial)
  : option Polynomial + option Polynomial :=
  match Q with
  | None => inr None
  | Some q =>
      match poly_add q T1 with
      | None => inl (Some q)
      | Some T2 =>
          match poly_copy T2 with
          | None => inl (Some (poly_free q))
          | Some q' => inr (Some q')
          end
      end
  end.

(** One round of the [while] loop: [inl] is the state [poly_div] returns
    after a jump to [error], [inr] the new [*Q] and [*R]. *)
Definition div_iteration (B_leadcoef : Complex) (B : Polynomial)
    (Q : option Polynomial) (R : Polynomial)
  : run (div_state + option Polynomial * Polynomial) :=
  match poly_init (deg R - deg B) with
  | None => Ret (inl (div_error Q R))
  | Some T1 =>
      match complex_div (Poly_LeadCoef R) B_leadcoef with
      | None => Indeterminate
      | Some c =>
          let T1 := poly_set_coef T1 (deg R - deg B) c in
          match div_quotient Q T1 with
          | inl Qe => Ret (inl (div_error Qe R))
          | inr Q' =>
              match poly_multiply T1 B with
              | None => Ret (inl (div_error Q' R))
              | Some T2 =>
                  match poly_sub R T2 with
                  | None => Ret (inl (div_error Q' R))
                  | Some T1' =>
                      match poly_copy T1' with
                      | None => Ret (inl (div_error Q' (poly_free R)))
                      | Some R' => Ret (inr (Q', R'))
                      end
                  end
              end
          end
      end
  end.

(** [while (R->deg - B->deg >= 0) { ... } return 1;] *)
Fixpoint div_loop (fuel : nat) (B_leadcoef : Complex) (B : Polynomial)
    (Q : option Polynomial) (R : Polynomial) : run div_state :=
  if 0 <=? deg R - deg B then
    match fuel with
    | O => OutOfFuel
    | S fuel' =>
        match div_iteration B_leadcoef B Q R with
        | Ret (inr (Q', R')) => div_loop fuel' B_leadcoef B Q' R'
        | Ret (inl st) => Ret st
        | OutOfFuel => OutOfFuel
        | Indeterminate => Indeterminate
        end
    end
  else Ret {| ret := 1; Qout := Q; Rout := R |}.

(** [poly_div(A, B, Q, R)]: [Q] and [R] are the contents of the two
    destinations at the call ([Q = None] for a NULL pointer). *)
Definition poly_div (fuel : nat) (A B : Polynomial)
    (Q : option Polynomial) (R : Polynomial) : run div_state :=
  if deg B =? -1 then Ret {| ret := -1; Qout := Q; Rout := R |}
  else
    let B_leadcoef := Poly_LeadCoef B in
    let Q := option_map (fun q => init_or q (-1)) Q in
    let R := init_or R (-1) in
    match
      match Q with
      | None => Some None
      | Some q =>
          match poly_init (deg A) with
          | None => None
          | Some q' => Some (Some q')
          end
      end
    with
    | None => Ret (div_error Q R)
    | Some Q =>
        match poly_copy A with
        | None => Ret (div_error Q R)
        | Some R => div_loop fuel B_leadcoef B Q R
        end
    end.

End Polynomials.

(** ** The degree invariant and the coefficients of a product *)

Section Invariant.
Context {D : Double}.

(** The block holds the slots [0..deg]. *)
Definition allocated (P : Polynomial) : Prop :=
  -1 <= deg P /\ deg P + 1 <= Z.of_nat (length (slots P)).

(** Every coefficient is zero. *)
Definition identically_zero (P : Polynomial) : Prop :=
  forall i : Z, complex_iszero (Poly_GetCoef P i) = true.

(** The degree is -1 exactly for the zero polynomial, and otherwise the
    coefficient at the degree is not zero. *)
Definition degree_invariant (P : Polynomial) : Prop :=
  (deg P = -1 <-> identically_zero P) /\
  (deg P <> -1 -> 0 <= deg P /\ complex_iszero (coef_at P (deg P)) = false).

Definition well_formed (P : Polynomial) : Prop :=
  allocated P /\ degree_invariant P.

(** The three conditions of [well_formed] that can be run: the block holds
    the slots [0..deg], and the degree is -1 or the leading coefficient is
    not zero. *)
Definition well_formedb (P : Polynomial) : bool :=
  (-1 <=? deg P) && (deg P + 1 <=? Z.of_nat (length (slots P))) &&
  ((deg P =? -1) || negb (complex_iszero (coef_at P (deg P)))).

(** The sum of [f lo], ..., [f (lo + n - 1)]. *)
Fixpoint zsum (n : nat) (lo : Z) (f : Z -> Complex) : Complex :=
  match n with
  | O => CZero
  | S n' => complex_add (f lo) (zsum n' (lo + 1) f)
  end.

(** The coefficient of degree [k] of the product of [A] and [B]. *)
Definition conv (A B : Polynomial) (k : Z) : Complex :=
  zsum (Z.to_nat (k + 1)) 0
       (fun j => complex_mult (Poly_GetCoef A j) (Poly_GetCoef B (k - j))).

(** [x] to the power [n]. *)
Fixpoint complex_pow (x : Complex) (n : nat) : Complex :=
  match n with
  | O => COne
  | S n' => complex_mult x (complex_pow x n')
  end.

(** The value at [x] of the polynomial with the coefficients [f 0], ...,
    [f (n - 1)]. *)
Definition value_of (f : Z -> Complex) (x : Complex) (n : nat) : Complex :=
  zsum n 0 (fun i => complex_mult (f i) (complex_pow x (Z.to_nat i))).

(** The slots of the block above the degree hold zero, as [calloc] leaves
    them and [Poly_Resize] finds them. *)
Definition clean (P : Polynomial) : Prop :=
  forall k : Z, 0 <= k -> deg P < k -> coef_at P k = CZero.

(** [clean], as a test that can be run. *)
Definition cleanb (P : Polynomial) : bool :=
  forallb complex_iszero (skipn (Z.to_nat (deg P + 1)) (slots P)).

End Invariant.

(** ** The rationals: an arithmetic that computes exactly *)

Definition Qc_eqb (x y : Qc) : bool := Qeq_bool (this x) (this y).

#[export] Instance QcDouble : Double := {|
  double := Qc;
  d0 := Q2Qc 0;
  d1 := Q2Qc 1;
  dadd := Qcplus;
  dsub := Qcminus;
  dneg := Qcopp;
  dmul := Qcmult;
  ddiv := Qcdiv;
  deqb := Qc_eqb;
  d_of_int := fun n => Q2Qc (inject_Z n)
|}.

Module Examples.

Definition C (re im : Z) : @Complex QcDouble :=
  {| real := Q2Qc (inject_Z re); imag := Q2Qc (inject_Z im) |}.

(** The polynomial with the given integer coefficients, lowest degree first,
    built as a caller does: [poly_init] and then [poly_set_coef] per slot. *)
Definition of_ints (l : list Z) : @Polynomial QcDouble :=
  match poly_init (Z.of_nat (length l) - 1) with
  | None => {| deg := -1; coef := None |}
  | Some P =>
      fst (fold_left (fun '(P, i) z => (poly_set_coef P i (C z 0), i + 1)) l (P, 0))
  end.

(** Degree and coefficients, as fractions. *)
Definition show (P : @Polynomial QcDouble) : Z * list (Q * Q) :=
  (deg P, map (fun c => (this (real c), this (imag c))) (slots P)).

(** 0, 1, X, X^2, X^2 - 1 and X - 1. *)
Definition zero := of_ints [].
Definition one := of_ints [1].
Definition X := of_ints [0; 1].
Definition X2 := of_ints [0; 0; 1].
Definition X2m1 := of_ints [-1; 0; 1].
Definition Xm1 := of_ints [-1; 1].

(** What a destination may hold before a call: a struct nobody has set. *)
Definition stale : @Polynomial QcDouble := {| deg := 7; coef := None |}.

(** A block of three slots under the degree 1, as [poly_set_coef] leaves it
    after a leading coefficient has been overwritten with zero. *)
Definition roomy : @Polynomial QcDouble :=
  {| deg := 1; coef := Some [C 5 0; C 2 0; C 0 0] |}.

End Examples.

Module More_examples.

(** The degree 1 over two zero coefficients: what [poly_init(P, 1)] leaves
    before a coefficient is set, and what [poly_multiply] returns for the
    polynomial of degree -1 and [X^2]. *)
Definition blank : @Polynomial QcDouble :=
  {| deg := 1; coef := Some [Examples.C 0 0; Examples.C 0 0] |}.

(** The constant 1 stored under the degree 2, before [Poly_Resize]. *)
Definition padded : @Polynomial QcDouble :=
  {| deg := 2; coef := Some [Examples.C 1 0; Examples.C 0 0; Examples.C 0 0] |}.

End More_examples.

(** ** binary64 as [double] *)

(** The conversion of an [int] to [double], which is exact. *)
Definition float_of_int (n : Z) : PrimFloat.float :=
  if n <? 0 then PrimFloat.opp (PrimFloat.of_uint63 (Uint63.of_Z (- n)))
  else PrimFloat.of_uint63 (Uint63.of_Z n).

(** The arithmetic of C's [double]: IEEE 754 binary64, rounding to nearest,
    [==] as the standard has it. *)
Definition Binary64 : Double := {|
  double := PrimFloat.float;
  d0 := PrimFloat.zero;
  d1 := PrimFloat.one;
  dadd := PrimFloat.add;
  dsub := PrimFloat.sub;
  dneg := PrimFloat.opp;
  dmul := PrimFloat.mul;
  ddiv := PrimFloat.div;
  deqb := PrimFloat.eqb;
  d_of_int := float_of_int
|}.

Module Binary64_examples.
Import PrimFloat.

(** The real number [re] as a complex number. *)
Definition F (re : float) : @Complex Binary64 := @mkComplex Binary64 re zero.

(** The polynomial with the given real coefficients, lowest degree first,
    built with [poly_init] and [poly_set_coef]. *)
Definition of_floats (l : list float) : @Polynomial Binary64 :=
  match @poly_init Binary64 (Z.of_nat (length l) - 1) with
  | None => @mkPoly Binary64 (-1) None
  | Some P =>
      fst (fold_left (fun '(P, i) z => (poly_set_coef P i (F z), i + 1)) l (P, 0))
  end.

(** What a destination may hold before a call. *)
Definition stale64 : @Polynomial Binary64 := @mkPoly Binary64 7 None.

(** The polynomial of degree -1. *)
Definition zero64 : @Polynomial Binary64 := @mkPoly Binary64 (-1) None.

(** [0.1 + 0.7 X] and [0.3], each the nearest binary64 number. *)
Definition tenth_plus := of_floats [0x1.999999999999ap-4; 0x1.6666666666666p-1]%float.
Definition three_tenths := of_floats [0x1.3333333333333p-2]%float.

Definition tiny := of_floats [0x1p-600]%float.


(** What [poly_div] returns in [*Q] for [0.1 + 0.7 X] divided by [0.3], and
    the product of that quotient and [0.3]. *)
Definition tenth_plus_quotient :=
  of_floats [0x1.5555555555556p-2; 0x1.2aaaaaaaaaaaap+1]%float.


(** The block of one zero under the degree 0: the product of [2^-600] and
    itself. *)
Definition tiny_square : @Polynomial Binary64 :=
  @mkPoly Binary64 0 (Some [F 0]%float).

(** A subnormal, a rounded and a huge coefficient: [2^-1074 + 0.1 X +
    2^1000 X^2]; and the point [2^1000]. *)
Definition mixed := of_floats [0x1p-1074; 0x1.999999999999ap-4; 0x1p1000]%float.
Definition far := F 0x1p1000%float.

End Binary64_examples.


(** ** Complex arithmetic over an exact field *)

Section Complex_field.
Context {D : Double} {E : ExactField D}.

Add Field double_field : d_field.

Lemma deqb_refl (x : double) : (x == x)%D = true.
Proof. apply d_eqb_eq. reflexivity. Qed.

Lemma deqb_false (x y : double) : (x == y)%D = false <-> x <> y.
Proof.
  split.
  - intros H Heq. apply d_eqb_eq in Heq. congruence.
  - intro H. destruct (x == y)%D eqn:Hb; [|reflexivity].
    apply d_eqb_eq in Hb. contradiction.
Qed.

Lemma d1_neq_d0 : d1 <> d0.
Proof. exact (F_1_neq_0 d_field). Qed.

Lemma complex_iszero_true (c : Complex) : complex_iszero c = true <-> c = CZero.
Proof.
  unfold complex_iszero, CZero. rewrite andb_true_iff, !d_eqb_eq.
  destruct c as [re im]; simpl. split.
  - intros [-> ->]. reflexivity.
  - intros [= -> ->]. split; reflexivity.
Qed.

Lemma complex_iszero_false (c : Complex) : complex_iszero c = false <-> c <> CZero.
Proof.
  rewrite <- complex_iszero_true. destruct (complex_iszero c); split; congruence.
Qed.

Lemma complex_iszero_CZero : complex_iszero CZero = true.
Proof. apply complex_iszero_true. reflexivity. Qed.

Lemma complex_iszero_COne : complex_iszero COne = false.
Proof.
  apply complex_iszero_false. intros [= H]. exact (d1_neq_d0 H).
Qed.

Lemma complex_ring :
  ring_theory CZero COne complex_add complex_mult complex_sub complex_neg eq.
Proof.
  constructor; intros; repeat match goal with c : Complex |- _ => destruct c end;
    unfold complex_add, complex_mult, complex_sub, complex_neg, CZero, COne;
    simpl; f_equal; ring.
Qed.

Add Ring complex_ring_inst : complex_ring.

Lemma complex_add_comm (a b : Complex) : complex_add a b = complex_add b a.
Proof. ring. Qed.

Lemma complex_div_mult (a b c : Complex) :
  complex_div a b = Some c -> complex_mult c b = a.
Proof.
  unfold complex_div. destruct (deqb _ _) eqn:Hd; [discriminate|].
  intros [= <-]. destruct a as [ar ai], b as [br bi]; unfold complex_mult; simpl in *.
  assert (Hnz : (br * br + bi * bi)%D <> d0) by (apply deqb_false; exact Hd).
  f_equal; field; exact Hnz.
Qed.

(** Division by a complex number that is not zero never takes the [EDOM]
    branch. *)
Lemma complex_div_defined (a b : Complex) :
  b <> CZero -> exists c, complex_div a b = Some c.
Proof.
  intro Hb. unfold complex_div. destruct (deqb _ _) eqn:Hd; [|eauto].
  exfalso. apply Hb. apply d_eqb_eq in Hd. apply d_sumsq in Hd.
  destruct b as [br bi]; simpl in Hd. destruct Hd as [-> ->]. reflexivity.
Qed.

Lemma complex_mult_nonzero (a b : Complex) :
  a <> CZero -> b <> CZero -> complex_mult a b <> CZero.
Proof.
  intros Ha Hb H. apply Ha.
  assert (Hsq : (real b * real b + imag b * imag b)%D <> d0).
  { intro H0. apply Hb. apply d_sumsq in H0. destruct b; simpl in *.
    destruct H0 as [-> ->]. reflexivity. }
  destruct a as [ar ai], b as [br bi]. unfold complex_mult, CZero in *; simpl in *.
  injection H as Hre Him.
  (* a is the product a * b times the conjugate of b, over |b|^2 *)
  assert (Har : ar = (((ar * br - ai * bi) * br + (ar * bi + ai * br) * bi)
                      / (br * br + bi * bi))%D) by (field; exact Hsq).
  assert (Hai : ai = (((ar * bi + ai * br) * br - (ar * br - ai * bi) * bi)
                      / (br * br + bi * bi))%D) by (field; exact Hsq).
  rewrite Hre, Him in Har, Hai.
  rewrite Har, Hai. f_equal; field; exact Hsq.
Qed.

Lemma complex_neg_nonzero (a : Complex) : a <> CZero -> complex_neg a <> CZero.
Proof.
  intros Ha H. apply Ha.
  replace a with (complex_neg (complex_neg a)) by ring. rewrite H. ring.
Qed.

Lemma complex_of_int_nonzero (n : Z) :
  0 < n -> {| real := d_of_int n; imag := d0 |} <> CZero.
Proof. intros Hn [= H]. exact (d_of_int_pos n Hn H). Qed.

End Complex_field.
(** ** The rationals are an exact field *)

Lemma Qc_eqb_eq (x y : Qc) : Qc_eqb x y = true <-> x = y.
Proof.
  unfold Qc_eqb. rewrite Qeq_bool_iff. split.
  - apply Qc_is_canon.
  - intros ->. reflexivity.
Qed.

Lemma this_Qcplus (x y : Qc) : (this (x + y)%Qc == this x + this y)%Q.
Proof. unfold Qcplus, Q2Qc; cbn [this]. apply Qred_correct. Qed.
Lemma this_Qcmult (x y : Qc) : (this (x * y)%Qc == this x * this y)%Q.
Proof. unfold Qcmult, Q2Qc; cbn [this]. apply Qred_correct. Qed.
Lemma Qc_sumsq (x y : Qc) : (x * x + y * y)%Qc = Q2Qc 0 -> x = Q2Qc 0 /\ y = Q2Qc 0.
Proof.
  intro H.
  assert (Hq : (this x * this x + this y * this y == 0)%Q).
  { rewrite <- !this_Qcmult, <- this_Qcplus, H. reflexivity. }
  assert (Hx : (this x == 0)%Q) by nra.
  assert (Hy : (this y == 0)%Q) by nra.
  split; apply Qc_is_canon; assumption.
Qed.
Lemma Qc_of_int_pos (n : Z) : (0 < n)%Z -> Q2Qc (inject_Z n) <> Q2Qc 0.
Proof.
  intros Hn H. apply (f_equal this) in H. 
  assert (Hq : (inject_Z n == 0)%Q).
  { rewrite <- (Qred_correct (inject_Z n)). change (Qred (inject_Z n)) with (this (Q2Qc (inject_Z n))).
    rewrite H. reflexivity. }
  unfold Qeq, inject_Z in Hq; simpl in Hq. lia.
Qed.

#[export] Instance QcExact : ExactField QcDouble.
Proof.
  constructor.
  - destruct Qcft as [R Hone Hdiv Hinv]. constructor; simpl.
    + exact R.
    + exact Hone.
    + intros p q. unfold Qcdiv. ring.
    + intros p Hp. unfold Qcdiv. rewrite Qcmult_1_l. apply Hinv. exact Hp.
  - exact Qc_sumsq.
  - exact Qc_eqb_eq.
  - exact Qc_of_int_pos.
Qed.

(** ** Loops and blocks *)

Section Loops.
Context {S : Type}.

Lemma for_loop_ext (n : nat) (lo : Z) (f g : Z -> S -> S) (s : S) :
  (forall i s', lo <= i < lo + Z.of_nat n -> f i s' = g i s') ->
  for_loop n lo f s = for_loop n lo g s.
Proof.
  revert lo s. induction n as [|n IH]; intros lo s H; simpl; [reflexivity|].
  rewrite H by lia. apply IH. intros i s' Hi. apply H. lia.
Qed.

(** Induction over the rounds of a [for] loop. *)
Lemma for_loop_inv (I : Z -> S -> Prop) (n : nat) (lo : Z) (body : Z -> S -> S) (s : S) :
  I lo s ->
  (forall i s', lo <= i < lo + Z.of_nat n -> I i s' -> I (i + 1) (body i s')) ->
  I (lo + Z.of_nat n) (for_loop n lo body s).
Proof.
  revert lo s. induction n as [|n IH]; intros lo s H0 Hstep; simpl for_loop.
  - replace (lo + Z.of_nat 0) with lo by lia. exact H0.
  - replace (lo + Z.of_nat (Datatypes.S n)) with ((lo + 1) + Z.of_nat n) by lia.
    apply IH.
    + apply Hstep; [lia | exact H0].
    + intros i s' Hi. apply Hstep. lia.
Qed.

End Loops.

Section Blocks.
Context {D : Double}.

Lemma store_length (l : list Complex) (i : nat) (c : Complex) :
  length (store l i c) = length l.
Proof.
  revert i. induction l as [|x l IH]; intros [|i]; simpl; auto.
Qed.

Lemma nth_store_same (l : list Complex) (i : nat) (c d : Complex) :
  (i < length l)%nat -> nth i (store l i c) d = c.
Proof.
  revert i. induction l as [|x l IH]; intros [|i] H; simpl in *; try lia; auto.
  apply IH. lia.
Qed.

Lemma nth_store_other (l : list Complex) (i j : nat) (c d : Complex) :
  i <> j -> nth j (store l i c) d = nth j l d.
Proof.
  revert i j. induction l as [|x l IH]; intros [|i] [|j] H; simpl; auto; try lia.
Qed.

Lemma deg_set_slot (P : Polynomial) (i : Z) (c : Complex) :
  deg (set_slot P i c) = deg P.
Proof. reflexivity. Qed.

Lemma length_set_slot (P : Polynomial) (i : Z) (c : Complex) :
  length (slots (set_slot P i c)) = length (slots P).
Proof.
  unfold slots, set_slot; simpl. destruct (coef P); simpl; auto using store_length.
Qed.

Lemma coef_at_set_slot_same (P : Polynomial) (i : Z) (c : Complex) :
  0 <= i < Z.of_nat (length (slots P)) -> coef_at (set_slot P i c) i = c.
Proof.
  intro H. unfold coef_at, slots, set_slot in *; simpl.
  destruct (coef P); simpl in *; [|lia].
  apply nth_store_same. lia.
Qed.

Lemma coef_at_set_slot_other (P : Polynomial) (i k : Z) (c : Complex) :
  0 <= i -> 0 <= k -> i <> k -> coef_at (set_slot P i c) k = coef_at P k.
Proof.
  intros Hi Hk H. unfold coef_at, slots, set_slot in *; simpl.
  destruct (coef P); simpl in *; [|reflexivity].
  apply nth_store_other. lia.
Qed.

(** A loop that fills the slots [0..hi], the value of slot [i] computed from
    what the slot held: the degree and the size of the block stay, slot [i]
    holds [f i] of its former value, the slots above [hi] are untouched. *)
Lemma fill_slots (f : Z -> Complex -> Complex) (body : Z -> Polynomial -> Polynomial)
    (hi : Z) (R : Polynomial) :
  hi + 1 <= Z.of_nat (length (slots R)) ->
  (forall i P, 0 <= i < Z.of_nat (length (slots P)) ->
     deg (body i P) = deg P /\
     length (slots (body i P)) = length (slots P) /\
     coef_at (body i P) i = f i (coef_at P i) /\
     forall k, 0 <= k -> k <> i -> coef_at (body i P) k = coef_at P k) ->
  let R' := for_upto hi body R in
  deg R' = deg R /\
  length (slots R') = length (slots R) /\
  (forall k, 0 <= k <= hi -> coef_at R' k = f k (coef_at R k)) /\
  (forall k, hi < k -> coef_at R' k = coef_at R k).
Proof.
  intros Hlen Hbody. unfold for_upto.
  destruct (Z.ltb_spec hi 0) as [Hneg|Hpos].
  { replace (Z.to_nat (hi + 1)) with O by lia. simpl.
    repeat split; auto. intros k Hk. lia. }
  pose (I := fun (i : Z) (P : Polynomial) =>
    deg P = deg R /\ length (slots P) = length (slots R) /\
    (forall k, 0 <= k < i -> coef_at P k = f k (coef_at R k)) /\
    (forall k, i <= k -> coef_at P k = coef_at R k)).
  assert (HI : I (0 + Z.of_nat (Z.to_nat (hi + 1)))
                 (for_loop (Z.to_nat (hi + 1)) 0 body R)).
  { apply for_loop_inv.
    - unfold I. repeat split; auto. intros k Hk. lia.
    - intros i P Hi (Hd & Hl & Hlow & Hhigh).
      destruct (Hbody i P) as (Bd & Bl & Bi & Bo); [lia|].
      unfold I. repeat split.
      + congruence.
      + congruence.
      + intros k Hk. destruct (Z.eq_dec k i) as [->|Hne].
        * rewrite Bi, Hhigh by lia. reflexivity.
        * rewrite Bo by lia. apply Hlow. lia.
      + intros k Hk. rewrite Bo by lia. apply Hhigh. lia. }
  destruct HI as (Hd & Hl & Hlow & Hhigh).
  cbv zeta. repeat split; auto.
  - intros k Hk. apply Hlow. lia.
  - intros k Hk. apply Hhigh. lia.
Qed.

End Blocks.

(** ** The operators, coefficient by coefficient *)

Section Operators.
Context {D : Double} {E : ExactField D}.

Add Field double_field' : d_field.
Add Ring complex_ring' : complex_ring.

(** *** Sums *)

Lemma zsum_ext (n : nat) (lo : Z) (f g : Z -> Complex) :
  (forall j, lo <= j < lo + Z.of_nat n -> f j = g j) ->
  zsum n lo f = zsum n lo g.
Proof.
  revert lo. induction n as [|n IH]; intros lo H; simpl; [reflexivity|].
  rewrite H by lia. f_equal. apply IH. intros j Hj. apply H. lia.
Qed.

Lemma zsum_zero (n : nat) (lo : Z) (f : Z -> Complex) :
  (forall j, lo <= j < lo + Z.of_nat n -> f j = CZero) ->
  zsum n lo f = CZero.
Proof.
  revert lo. induction n as [|n IH]; intros lo H; simpl; [reflexivity|].
  rewrite H by lia. rewrite IH; [ring|]. intros j Hj. apply H. lia.
Qed.

Lemma zsum_add (n : nat) (lo : Z) (f g : Z -> Complex) :
  zsum n lo (fun j => complex_add (f j) (g j)) =
  complex_add (zsum n lo f) (zsum n lo g).
Proof.
  revert lo. induction n as [|n IH]; intros lo; simpl; [ring|].
  rewrite IH. ring.
Qed.

(** A sum with at most one term that is not zero. *)
Lemma zsum_single (n : nat) (lo j0 : Z) (f : Z -> Complex) :
  lo <= j0 < lo + Z.of_nat n ->
  (forall j, lo <= j < lo + Z.of_nat n -> j <> j0 -> f j = CZero) ->
  zsum n lo f = f j0.
Proof.
  revert lo. induction n as [|n IH]; intros lo Hj0 H; simpl; [lia|].
  destruct (Z.eq_dec lo j0) as [->|Hne].
  - rewrite zsum_zero; [ring|]. intros j Hj. apply H; lia.
  - rewrite H by lia. rewrite IH; [ring|lia|]. intros j Hj. apply H. lia.
Qed.

(** *** Reading coefficients *)

Lemma GetCoef_in (P : Polynomial) (i : Z) :
  0 <= i <= deg P -> Poly_GetCoef P i = coef_at P i.
Proof.
  intro H. unfold Poly_GetCoef.
  destruct (Z.ltb_spec i 0); [lia|]. destruct (Z.ltb_spec (deg P) i); [lia|]. reflexivity.
Qed.

Lemma GetCoef_out (P : Polynomial) (i : Z) :
  i < 0 \/ deg P < i -> Poly_GetCoef P i = CZero.
Proof.
  intro H. unfold Poly_GetCoef.
  destruct (Z.ltb_spec i 0); [reflexivity|]. destruct (Z.ltb_spec (deg P) i); [reflexivity|lia].
Qed.

(** *** [Poly_Resize] *)

Lemma resize_from_spec (l : list Complex) (n : nat) :
  let d := resize_from l n in
  -1 <= d < Z.of_nat n /\
  (d <> -1 -> complex_iszero (nth (Z.to_nat d) l CZero) = false) /\
  (forall k, d < k < Z.of_nat n -> nth (Z.to_nat k) l CZero = CZero).
Proof.
  induction n as [|n IH]; simpl.
  - repeat split; try lia; intros; lia.
  - destruct (complex_iszero (nth n l CZero)) eqn:Hz.
    + destruct IH as (Hr & Hnz & Hzero). repeat split; try lia; auto.
      intros k Hk. destruct (Z.eq_dec k (Z.of_nat n)) as [->|Hne].
      * rewrite Nat2Z.id. apply complex_iszero_true. exact Hz.
      * apply Hzero. lia.
    + repeat split; try lia.
      intros _. rewrite Nat2Z.id. exact Hz.
Qed.

Lemma Poly_Resize_spec (P : Polynomial) :
  -1 <= deg P ->
  let P' := Poly_Resize P in
  coef P' = coef P /\
  -1 <= deg P' <= deg P /\
  (deg P' <> -1 -> complex_iszero (coef_at P' (deg P')) = false) /\
  (forall k, deg P' < k <= deg P -> coef_at P k = CZero) /\
  (forall k, Poly_GetCoef P' k = Poly_GetCoef P k).
Proof.
  intros Hd P'.
  pose proof (resize_from_spec (slots P) (Z.to_nat (deg P + 1))) as H.
  cbv zeta in H. fold (deg P') in H. change (resize_from _ _) with (deg P') in H.
  destruct H as (Hr & Hnz & Hzero).
  assert (Hslots : slots P' = slots P) by reflexivity.
  repeat split; try lia.
  - intro Hne. unfold coef_at. rewrite Hslots. auto.
  - intros k Hk. apply Hzero. lia.
  - intros k.
    destruct (Z_lt_le_dec k 0) as [Hk|Hk].
    { rewrite !GetCoef_out by lia. reflexivity. }
    destruct (Z_lt_le_dec (deg P) k) as [Hk'|Hk'].
    { rewrite !GetCoef_out by lia. reflexivity. }
    rewrite (GetCoef_in P) by lia.
    destruct (Z_lt_le_dec (deg P') k) as [Hk''|Hk''].
    + rewrite GetCoef_out by lia. symmetry. apply Hzero. lia.
    + rewrite GetCoef_in by lia. reflexivity.
Qed.

(** The degree [Poly_Resize] stops at is the index of the highest coefficient
    that is not zero. *)
Lemma Poly_Resize_deg (P : Polynomial) (d : Z) :
  -1 <= d <= deg P ->
  (d <> -1 -> coef_at P d <> CZero) ->
  (forall k, d < k <= deg P -> coef_at P k = CZero) ->
  deg (Poly_Resize P) = d.
Proof.
  intros Hd Hnz Hzero.
  destruct (Poly_Resize_spec P) as (Hc & Hr & Hnz' & Hzero' & _); [lia|].
  assert (Hat : forall k, coef_at (Poly_Resize P) k = coef_at P k) by reflexivity.
  destruct (Z.lt_trichotomy (deg (Poly_Resize P)) d) as [Hlt|[Heq|Hgt]]; auto.
  - exfalso. apply Hnz; [lia|]. apply Hzero'. lia.
  - exfalso. assert (Hne : deg (Poly_Resize P) <> -1) by lia.
    specialize (Hnz' Hne). rewrite Hat, Hzero in Hnz' by lia.
    rewrite complex_iszero_CZero in Hnz'. discriminate.
Qed.

(** *** [poly_init] and the pointwise operators *)

Lemma poly_init_spec (d : Z) :
  -1 <= d ->
  exists P, poly_init d = Some P /\ deg P = d /\
            length (slots P) = Z.to_nat (d + 1) /\
            (forall k, coef_at P k = CZero) /\
            coef P = if d =? -1 then None else Some (repeat CZero (Z.to_nat (d + 1))).
Proof.
  intro Hd. unfold poly_init.
  destruct (Z.eqb_spec d (-1)) as [->|Hne].
  - eexists; repeat split. intros k. unfold coef_at; simpl. destruct (Z.to_nat k); reflexivity.
  - destruct (Z.ltb_spec d (-1)); [lia|].
    eexists; repeat split.
    + unfold slots; simpl. apply repeat_length.
    + intros k. unfold coef_at, slots; simpl. apply nth_repeat.
Qed.

Lemma poly_init_refuses (d : Z) : d < -1 -> poly_init d = None.
Proof.
  intro Hd. unfold poly_init.
  destruct (Z.eqb_spec d (-1)); [lia|]. destruct (Z.ltb_spec d (-1)); [reflexivity|lia].
Qed.

Lemma set_slot_body (g : Z -> Complex) (i : Z) (P : Polynomial) :
  0 <= i < Z.of_nat (length (slots P)) ->
  deg (set_slot P i (g i)) = deg P /\
  length (slots (set_slot P i (g i))) = length (slots P) /\
  coef_at (set_slot P i (g i)) i = (fun k (_ : Complex) => g k) i (coef_at P i) /\
  forall k, 0 <= k -> k <> i -> coef_at (set_slot P i (g i)) k = coef_at P k.
Proof.
  intro Hi. repeat split.
  - apply length_set_slot.
  - apply coef_at_set_slot_same. exact Hi.
  - intros k Hk Hne. apply coef_at_set_slot_other; lia.
Qed.

(** What the loop of [poly_add], [poly_sub], [poly_neg] and [poly_derive]
    leaves in a block that [poly_init] has just handed out. *)
Lemma fill_fresh (g : Z -> Complex) (d hi : Z) (R : Polynomial) :
  -1 <= d -> hi <= d -> poly_init d = Some R ->
  let R' := for_upto hi (fun i R => set_slot R i (g i)) R in
  deg R' = d /\
  length (slots R') = Z.to_nat (d + 1) /\
  (forall k, 0 <= k <= hi -> coef_at R' k = g k) /\
  (forall k, hi < k -> coef_at R' k = CZero).
Proof.
  intros Hd' Hhi Hinit.
  destruct (poly_init_spec d) as (R0 & H0 & Hd & Hl & Hz & _); [lia|].
  rewrite Hinit in H0. injection H0 as <-.
  destruct (fill_slots (fun k _ => g k) (fun i R => set_slot R i (g i)) hi R)
    as (Fd & Fl & Flow & Fhigh).
  - rewrite Hl. lia.
  - intros i P Hi. apply set_slot_body. exact Hi.
  - cbv zeta. repeat split.
    + congruence.
    + congruence.
    + exact Flow.
    + intros k Hk. rewrite Fhigh by lia. apply Hz.
Qed.

(** [poly_add] and [poly_sub]: the loop over [0..max] followed by
    [Poly_Resize]. *)
Lemma pointwise_spec (op : Complex -> Complex -> Complex) (A B R : Polynomial) :
  op CZero CZero = CZero ->
  poly_init (Z.max (deg A) (deg B)) = Some R ->
  -1 <= Z.max (deg A) (deg B) ->
  let S := Poly_Resize
             (for_upto (Z.max (deg A) (deg B))
                (fun i R => set_slot R i (op (Poly_GetCoef A i) (Poly_GetCoef B i))) R) in
  allocated S /\
  deg S <= Z.max (deg A) (deg B) /\
  length (slots S) = Z.to_nat (Z.max (deg A) (deg B) + 1) /\
  (deg S <> -1 -> complex_iszero (coef_at S (deg S)) = false) /\
  (forall k, Poly_GetCoef S k = op (Poly_GetCoef A k) (Poly_GetCoef B k)).
Proof.
  intros Hop Hinit Hm S.
  set (m := Z.max (deg A) (deg B)) in *.
  set (g := fun i => op (Poly_GetCoef A i) (Poly_GetCoef B i)).
  destruct (fill_fresh g m m R) as (Fd & Fl & Flow & Fhigh); [lia|lia|exact Hinit|].
  set (R1 := for_upto m (fun i R => set_slot R i (g i)) R) in *.
  change S with (Poly_Resize R1).
  destruct (Poly_Resize_spec R1) as (Hc & Hr & Hnz & Hzero & Hget); [lia|].
  assert (Hsl : slots (Poly_Resize R1) = slots R1) by reflexivity.
  repeat split.
  - lia.
  - rewrite Hsl, Fl. lia.
  - lia.
  - rewrite Hsl. exact Fl.
  - exact Hnz.
  - intros k. rewrite Hget.
    destruct (Z_lt_le_dec k 0) as [Hk|Hk].
    { rewrite !GetCoef_out by lia. congruence. }
    destruct (Z_lt_le_dec m k) as [Hk'|Hk'].
    { rewrite !GetCoef_out by lia. congruence. }
    rewrite GetCoef_in by lia. apply Flow. lia.
Qed.

Lemma poly_add_spec (A B : Polynomial) :
  -1 <= Z.max (deg A) (deg B) ->
  exists S, poly_add A B = Some S /\ allocated S /\
            deg S <= Z.max (deg A) (deg B) /\
            length (slots S) = Z.to_nat (Z.max (deg A) (deg B) + 1) /\
            (deg S <> -1 -> complex_iszero (coef_at S (deg S)) = false) /\
            (forall k, Poly_GetCoef S k =
                       complex_add (Poly_GetCoef A k) (Poly_GetCoef B k)).
Proof.
  intro Hm. unfold poly_add.
  destruct (poly_init_spec _ Hm) as (R & Hinit & _). rewrite Hinit.
  eexists; split; [reflexivity|].
  apply (pointwise_spec complex_add A B R); auto. ring.
Qed.

Lemma poly_sub_spec (A B : Polynomial) :
  -1 <= Z.max (deg A) (deg B) ->
  exists S, poly_sub A B = Some S /\ allocated S /\
            deg S <= Z.max (deg A) (deg B) /\
            length (slots S) = Z.to_nat (Z.max (deg A) (deg B) + 1) /\
            (deg S <> -1 -> complex_iszero (coef_at S (deg S)) = false) /\
            (forall k, Poly_GetCoef S k =
                       complex_sub (Poly_GetCoef A k) (Poly_GetCoef B k)).
Proof.
  intro Hm. unfold poly_sub.
  destruct (poly_init_spec _ Hm) as (R & Hinit & _). rewrite Hinit.
  eexists; split; [reflexivity|].
  apply (pointwise_spec complex_sub A B R); auto. ring.
Qed.

Lemma poly_neg_spec (A : Polynomial) :
  -1 <= deg A ->
  exists N, poly_neg A = Some N /\ deg N = deg A /\
            length (slots N) = Z.to_nat (deg A + 1) /\
            (forall k, 0 <= k <= deg A -> coef_at N k = complex_neg (coef_at A k)).
Proof.
  intro Hd. unfold poly_neg.
  destruct (poly_init_spec _ Hd) as (R & Hinit & _). rewrite Hinit.
  eexists; split; [reflexivity|].
  destruct (fill_fresh (fun i => complex_neg (coef_at A i)) (deg A) (deg A) R)
    as (Fd & Fl & Flow & _); [lia|lia|exact Hinit|].
  repeat split; assumption.
Qed.

Lemma poly_derive_spec (A : Polynomial) :
  -1 <= deg A ->
  exists R, poly_derive A = Some R /\ deg R = Z.max (-1) (deg A - 1) /\
            length (slots R) = Z.to_nat (Z.max (-1) (deg A - 1) + 1) /\
            (forall k, 0 <= k <= deg A - 1 ->
               coef_at R k = complex_mult {| real := d_of_int (k + 1); imag := d0 |}
                                          (coef_at A (k + 1))).
Proof.
  intro Hd. unfold poly_derive.
  destruct (poly_init_spec (Z.max (-1) (deg A - 1))) as (R & Hinit & _); [lia|].
  rewrite Hinit. eexists; split; [reflexivity|].
  destruct (fill_fresh
              (fun i => complex_mult {| real := d_of_int (i + 1); imag := d0 |}
                                     (coef_at A (i + 1)))
              (Z.max (-1) (deg A - 1)) (deg A - 1) R)
    as (Fd & Fl & Flow & _); [lia|lia|exact Hinit|].
  repeat split; assumption.
Qed.

Lemma poly_copy_spec (A : Polynomial) :
  -1 <= deg A ->
  exists P, poly_copy A = Some P /\ deg P = deg A /\
            length (slots P) = Nat.min (Z.to_nat (deg A + 1)) (length (slots A)) /\
            (forall k, 0 <= k <= deg A -> coef_at P k = coef_at A k) /\
            (forall k, Poly_GetCoef P k = Poly_GetCoef A k).
Proof.
  intro Hd. unfold poly_copy.
  destruct (poly_init_spec _ Hd) as (R & Hinit & HdR & Hl & _ & Hc). rewrite Hinit.
  eexists; split; [reflexivity|].
  assert (Hsl : slots (memcpy R (slots A) (deg A + 1)) =
                firstn (Z.to_nat (deg A + 1)) (slots A)).
  { unfold slots at 1, memcpy; simpl. rewrite Hc.
    destruct (Z.eqb_spec (deg A) (-1)) as [Heq|Hne]; simpl.
    - rewrite Heq. reflexivity.
    - rewrite skipn_all2 by (rewrite repeat_length; lia). apply app_nil_r. }
  assert (Hat : forall k, 0 <= k <= deg A ->
                  coef_at (memcpy R (slots A) (deg A + 1)) k = coef_at A k).
  { intros k Hk. unfold coef_at at 1. rewrite Hsl, nth_firstn.
    destruct (Nat.ltb_spec (Z.to_nat k) (Z.to_nat (deg A + 1))); [reflexivity|lia]. }
  repeat split.
  - exact HdR.
  - rewrite Hsl. apply length_firstn.
  - exact Hat.
  - intros k. unfold Poly_GetCoef. simpl deg. rewrite HdR.
    destruct ((k <? 0) || (deg A <? k)) eqn:Hb; [reflexivity|].
    apply orb_false_iff in Hb. destruct Hb as [H1 H2].
    apply Z.ltb_ge in H1, H2. apply Hat. lia.
Qed.

(** *** [poly_multiply] *)

Lemma zsum_snoc (n : nat) (lo : Z) (f : Z -> Complex) :
  zsum (S n) lo f = complex_add (zsum n lo f) (f (lo + Z.of_nat n)).
Proof.
  revert lo. induction n as [|n IH]; intros lo.
  - simpl. replace (lo + 0) with lo by lia. ring.
  - change (zsum (S (S n)) lo f) with (complex_add (f lo) (zsum (S n) (lo + 1) f)).
    rewrite IH. simpl zsum.
    replace (lo + 1 + Z.of_nat n) with (lo + Z.of_nat (S n)) by lia. ring.
Qed.

Lemma coef_at_accumulate_same (R : Polynomial) (i : Z) (tmp : Complex) :
  0 <= i < Z.of_nat (length (slots R)) ->
  coef_at (accumulate R i tmp) i = complex_add (coef_at R i) tmp.
Proof. intro Hi. unfold accumulate. rewrite coef_at_set_slot_same by exact Hi. reflexivity. Qed.

(** The inner loop of [poly_multiply] adds the terms [t 0], ..., [t hi] to
    slot [i] and leaves the rest of the polynomial alone. *)
Lemma inner_loop_spec (t : Z -> Complex) (i hi : Z) (P : Polynomial) :
  0 <= i < Z.of_nat (length (slots P)) ->
  let P' := for_upto hi (fun j R => accumulate R i (t j)) P in
  deg P' = deg P /\
  length (slots P') = length (slots P) /\
  coef_at P' i = complex_add (coef_at P i) (zsum (Z.to_nat (hi + 1)) 0 t) /\
  (forall k, 0 <= k -> k <> i -> coef_at P' k = coef_at P k).
Proof.
  intros Hi. unfold for_upto.
  pose (I := fun (j : Z) (R : Polynomial) =>
    deg R = deg P /\ length (slots R) = length (slots P) /\
    coef_at R i = complex_add (coef_at P i) (zsum (Z.to_nat j) 0 t) /\
    (forall k, 0 <= k -> k <> i -> coef_at R k = coef_at P k)).
  assert (HI : I (0 + Z.of_nat (Z.to_nat (hi + 1)))
                 (for_loop (Z.to_nat (hi + 1)) 0 (fun j R => accumulate R i (t j)) P)).
  { apply for_loop_inv.
    - unfold I. repeat split; auto. simpl. ring.
    - intros j R Hj (Hd & Hl & Hv & Ho). unfold I. repeat split.
      + exact Hd.
      + unfold accumulate. rewrite length_set_slot. exact Hl.
      + rewrite coef_at_accumulate_same by (rewrite Hl; exact Hi).
        rewrite Hv. replace (Z.to_nat (j + 1)) with (S (Z.to_nat j)) by lia.
        rewrite zsum_snoc. replace (0 + Z.of_nat (Z.to_nat j)) with j by lia. ring.
      + intros k Hk Hne. unfold accumulate.
        rewrite coef_at_set_slot_other by lia. apply Ho; assumption. }
  destruct HI as (Hd & Hl & Hv & Ho).
  cbv zeta. repeat split; auto.
  rewrite Hv.
  replace (Z.to_nat (0 + Z.of_nat (Z.to_nat (hi + 1)))) with (Z.to_nat (hi + 1)) by lia.
  reflexivity.
Qed.

Lemma poly_multiply_spec (A B : Polynomial) :
  -1 <= deg A + deg B ->
  exists M, poly_multiply A B = Some M /\ deg M = deg A + deg B /\
            length (slots M) = Z.to_nat (deg A + deg B + 1) /\
            (forall k, 0 <= k <= deg A + deg B -> coef_at M k = conv A B k).
Proof.
  intro Hd. unfold poly_multiply.
  destruct (poly_init_spec _ Hd) as (R & Hinit & HdR & Hl & Hz & _). rewrite Hinit.
  eexists; split; [reflexivity|].
  set (t := fun i j => complex_mult (Poly_GetCoef A j) (Poly_GetCoef B (i - j))).
  destruct (fill_slots
              (fun i c => complex_add c (zsum (Z.to_nat (i + 1)) 0 (t i)))
              (fun i R => for_upto i (fun j R => accumulate R i (t i j)) R)
              (deg A + deg B) R) as (Fd & Fl & Flow & _).
  - rewrite Hl. lia.
  - intros i P Hi. apply (inner_loop_spec (t i) i i P Hi).
  - repeat split.
    + exact (eq_trans Fd HdR).
    + exact (eq_trans Fl Hl).
    + intros k Hk. etransitivity; [exact (Flow k Hk)|].
      rewrite Hz. unfold conv. fold (t k). ring.
Qed.

(** The product has no coefficient above the sum of the degrees. *)
Lemma conv_above (A B : Polynomial) (k : Z) :
  deg A + deg B < k -> conv A B k = CZero.
Proof.
  intro Hk. unfold conv. apply zsum_zero. intros j Hj.
  destruct (Z_lt_le_dec (deg A) j) as [H|H].
  - rewrite (GetCoef_out A) by lia. ring.
  - rewrite (GetCoef_out B) by lia. ring.
Qed.

(** Its coefficient at the sum of the degrees is the product of the leading
    coefficients. *)
Lemma conv_top (A B : Polynomial) :
  0 <= deg A -> 0 <= deg B ->
  conv A B (deg A + deg B) = complex_mult (coef_at A (deg A)) (coef_at B (deg B)).
Proof.
  intros HA HB. unfold conv.
  rewrite (zsum_single _ 0 (deg A)); [|lia|].
  - rewrite !GetCoef_in by lia. f_equal. f_equal. lia.
  - intros j Hj Hne. destruct (Z_lt_le_dec (deg A) j) as [H|H].
    + rewrite (GetCoef_out A) by lia. ring.
    + rewrite (GetCoef_out B) by lia. ring.
Qed.

Lemma conv_zero_r (A B : Polynomial) (k : Z) :
  (forall j, Poly_GetCoef B j = CZero) -> conv A B k = CZero.
Proof.
  intro H. unfold conv. apply zsum_zero. intros j _. rewrite H. ring.
Qed.

Lemma conv_add_r (A B B1 B2 : Polynomial) (k : Z) :
  (forall j, Poly_GetCoef B j = complex_add (Poly_GetCoef B1 j) (Poly_GetCoef B2 j)) ->
  conv A B k = complex_add (conv A B1 k) (conv A B2 k).
Proof.
  intro H. unfold conv. rewrite <- zsum_add. apply zsum_ext.
  intros j _. rewrite H. ring.
Qed.

(** Products with the single term [c X^t]. *)
Lemma conv_term_l (T B : Polynomial) (t : Z) (c : Complex) (k : Z) :
  0 <= t ->
  (forall j, Poly_GetCoef T j = if j =? t then c else CZero) ->
  conv T B k = complex_mult c (Poly_GetCoef B (k - t)).
Proof.
  intros Ht HT. unfold conv.
  destruct (Z_lt_le_dec k t) as [Hk|Hk].
  - rewrite (GetCoef_out B) by lia. rewrite zsum_zero; [ring|].
    intros j Hj. rewrite HT. destruct (Z.eqb_spec j t); [lia|]. ring.
  - rewrite (zsum_single _ 0 t); [|lia|].
    + rewrite HT, Z.eqb_refl. reflexivity.
    + intros j Hj Hne. rewrite HT. destruct (Z.eqb_spec j t); [lia|]. ring.
Qed.

Lemma conv_term_r (T B : Polynomial) (t : Z) (c : Complex) (k : Z) :
  0 <= t ->
  (forall j, Poly_GetCoef T j = if j =? t then c else CZero) ->
  conv B T k = complex_mult c (Poly_GetCoef B (k - t)).
Proof.
  intros Ht HT. unfold conv.
  destruct (Z_lt_le_dec k t) as [Hk|Hk].
  - rewrite (GetCoef_out B) by lia. rewrite zsum_zero; [ring|].
    intros j Hj. rewrite HT. destruct (Z.eqb_spec (k - j) t); [lia|]. ring.
  - rewrite (zsum_single _ 0 (k - t)); [|lia|].
    + rewrite HT. replace (k - (k - t)) with t by lia. rewrite Z.eqb_refl. ring.
    + intros j Hj Hne. rewrite HT. destruct (Z.eqb_spec (k - j) t); [lia|]. ring.
Qed.

(** *** The degree invariant *)

Lemma degree_invariant_intro (P : Polynomial) :
  -1 <= deg P ->
  (deg P <> -1 -> complex_iszero (coef_at P (deg P)) = false) ->
  degree_invariant P.
Proof.
  intros Hd Hnz. split; [split|].
  - intros H i. rewrite GetCoef_out by lia. apply complex_iszero_CZero.
  - intros H. destruct (Z.eq_dec (deg P) (-1)) as [|Hne]; [assumption|exfalso].
    specialize (H (deg P)). rewrite GetCoef_in in H by lia.
    rewrite (Hnz Hne) in H. discriminate.
  - intros Hne. split; [lia|auto].
Qed.

Lemma well_formed_intro (P : Polynomial) :
  -1 <= deg P -> deg P + 1 <= Z.of_nat (length (slots P)) ->
  (deg P <> -1 -> complex_iszero (coef_at P (deg P)) = false) ->
  well_formed P.
Proof.
  intros H1 H2 H3. split; [split; assumption|].
  apply degree_invariant_intro; assumption.
Qed.

Lemma well_formedb_correct (P : Polynomial) :
  well_formedb P = true -> well_formed P.
Proof.
  unfold well_formedb. rewrite !andb_true_iff, orb_true_iff, negb_true_iff.
  rewrite !Z.leb_le, Z.eqb_eq. intros [[H1 H2] H3].
  apply well_formed_intro; auto. intros Hne. destruct H3; [contradiction|assumption].
Qed.

Lemma well_formed_deg (P : Polynomial) : well_formed P -> -1 <= deg P.
Proof. intros [[H _] _]. exact H. Qed.

Lemma well_formed_lead (P : Polynomial) :
  well_formed P -> 0 <= deg P -> coef_at P (deg P) <> CZero.
Proof.
  intros [_ [_ H]] Hd. apply complex_iszero_false. apply H. lia.
Qed.

(** Two polynomials with the same coefficients, each with a leading
    coefficient that is not zero, have the same degree. *)
Lemma same_coefficients_same_degree (P Q : Polynomial) :
  -1 <= deg P -> -1 <= deg Q ->
  (deg P <> -1 -> complex_iszero (coef_at P (deg P)) = false) ->
  (deg Q <> -1 -> complex_iszero (coef_at Q (deg Q)) = false) ->
  (forall k, Poly_GetCoef P k = Poly_GetCoef Q k) ->
  deg P = deg Q.
Proof.
  intros HP HQ HlP HlQ Heq.
  destruct (Z.lt_trichotomy (deg P) (deg Q)) as [Hlt|[|Hgt]]; [exfalso| assumption |exfalso].
  - assert (Hne : deg Q <> -1) by lia. specialize (HlQ Hne).
    specialize (Heq (deg Q)). rewrite GetCoef_out, GetCoef_in in Heq by lia.
    rewrite <- Heq, complex_iszero_CZero in HlQ. discriminate.
  - assert (Hne : deg P <> -1) by lia. specialize (HlP Hne).
    specialize (Heq (deg P)). rewrite GetCoef_in, GetCoef_out in Heq by lia.
    rewrite Heq, complex_iszero_CZero in HlP. discriminate.
Qed.

Lemma poly_equal_intro (P Q : Polynomial) :
  deg P = deg Q ->
  (forall i, 0 <= i <= deg P -> coef_at P i = coef_at Q i) ->
  poly_equal P Q = true.
Proof.
  intros Hd Hc. unfold poly_equal.
  rewrite Hd, Z.eqb_refl. simpl. apply forallb_forall.
  intros i Hi. apply in_map_iff in Hi. destruct Hi as (n & <- & Hn).
  apply in_seq in Hn. rewrite Hc by lia. rewrite !deqb_refl. reflexivity.
Qed.

(** *** [poly_set_coef] *)

Lemma poly_set_coef_allocated (P : Polynomial) (i : Z) (c : Complex) :
  allocated P -> 0 <= i < Z.of_nat (length (slots P)) ->
  well_formed (poly_set_coef P i c).
Proof.
  intros [Hd Hl] Hi. unfold poly_set_coef.
  change (deg (set_slot P i c)) with (deg P).
  destruct ((deg P <? i) && negb (complex_iszero c)) eqn:Hb.
  - apply andb_true_iff in Hb. destruct Hb as [Hlt Hnz].
    apply negb_true_iff in Hnz.
    apply well_formed_intro; simpl deg.
    + lia.
    + change (slots {| deg := i; coef := coef (set_slot P i c) |})
        with (slots (set_slot P i c)).
      rewrite length_set_slot. lia.
    + intros _.
      change (coef_at {| deg := i; coef := coef (set_slot P i c) |} i)
        with (coef_at (set_slot P i c) i).
      rewrite coef_at_set_slot_same by exact Hi. exact Hnz.
  - destruct (Poly_Resize_spec (set_slot P i c)) as (Hc & Hr & Hnz & _).
    { rewrite deg_set_slot. exact Hd. }
    rewrite deg_set_slot in Hr.
    apply well_formed_intro.
    + lia.
    + change (slots (Poly_Resize (set_slot P i c))) with (slots (set_slot P i c)).
      rewrite length_set_slot. lia.
    + exact Hnz.
Qed.

(** The single term [c X^t] that [poly_div] builds in [T1]. *)
Lemma term_spec (t : Z) (c : Complex) :
  0 <= t -> c <> CZero ->
  exists T0, poly_init t = Some T0 /\
    let T1 := poly_set_coef T0 t c in
    deg T1 = t /\
    (forall j, Poly_GetCoef T1 j = if j =? t then c else CZero).
Proof.
  intros Ht Hc.
  destruct (poly_init_spec t) as (T0 & Hinit & Hd & Hl & Hz & _); [lia|].
  exists T0. split; [exact Hinit|]. cbv zeta.
  unfold poly_set_coef. rewrite deg_set_slot, Hd, Z.ltb_irrefl. simpl.
  assert (Hin : 0 <= t < Z.of_nat (length (slots T0))) by (rewrite Hl; lia).
  assert (Hdeg : deg (Poly_Resize (set_slot T0 t c)) = t).
  { apply Poly_Resize_deg.
    - rewrite deg_set_slot. lia.
    - intros _. rewrite coef_at_set_slot_same by exact Hin. exact Hc.
    - intros k Hk. rewrite deg_set_slot in Hk. lia. }
  split; [exact Hdeg|].
  intros j. destruct (Z.eqb_spec j t) as [->|Hne].
  - rewrite GetCoef_in by lia.
    change (coef_at (Poly_Resize (set_slot T0 t c)) t) with (coef_at (set_slot T0 t c) t).
    apply coef_at_set_slot_same. exact Hin.
  - destruct (Z_lt_le_dec j 0) as [Hj|Hj]; [rewrite GetCoef_out by lia; reflexivity|].
    destruct (Z_lt_le_dec t j) as [Hj'|Hj']; [rewrite GetCoef_out by lia; reflexivity|].
    rewrite GetCoef_in by lia.
    change (coef_at (Poly_Resize (set_slot T0 t c)) j) with (coef_at (set_slot T0 t c) j).
    rewrite coef_at_set_slot_other by lia. apply Hz.
Qed.

(** *** One round of the division loop *)

Lemma poly_copy_well_formed (S : Polynomial) :
  allocated S ->
  (deg S <> -1 -> complex_iszero (coef_at S (deg S)) = false) ->
  exists P, poly_copy S = Some P /\ well_formed P /\ deg P = deg S /\
            (forall k, Poly_GetCoef P k = Poly_GetCoef S k).
Proof.
  intros [Hd Hl] Hnz.
  destruct (poly_copy_spec S Hd) as (P & HP & HdP & HlP & HatP & HgP).
  exists P. split; [exact HP|]. split; [|split; assumption].
  apply well_formed_intro.
  - lia.
  - rewrite HdP, HlP. lia.
  - intros Hne. rewrite HdP in *. rewrite HatP by lia. auto.
Qed.

(** The quotient gains the new term. *)
Lemma div_quotient_spec (q T1 : Polynomial) :
  0 <= deg T1 ->
  exists q', div_quotient (Some q) T1 = inr (Some q') /\ well_formed q' /\
             (forall k, Poly_GetCoef q' k =
                        complex_add (Poly_GetCoef q k) (Poly_GetCoef T1 k)).
Proof.
  intro HT. unfold div_quotient.
  destruct (poly_add_spec q T1) as (T2 & HT2 & HaT2 & _ & _ & HnzT2 & HgT2); [lia|].
  rewrite HT2.
  destruct (poly_copy_well_formed T2 HaT2 HnzT2) as (q' & Hq' & Hwf & _ & Hg).
  rewrite Hq'. exists q'. split; [reflexivity|]. split; [exact Hwf|].
  intros k. rewrite Hg. apply HgT2.
Qed.

Lemma div_iteration_spec (B : Polynomial) (Q : option Polynomial) (R : Polynomial) :
  well_formed B -> 0 <= deg B -> well_formed R -> deg B <= deg R ->
  exists Q' R',
    div_iteration (Poly_LeadCoef B) B Q R = Ret (inr (Q', R')) /\
    well_formed R' /\ deg R' < deg R /\
    match Q, Q' with
    | None, None => True
    | Some q, Some q' =>
        well_formed q' /\
        forall k, complex_add (conv B q' k) (Poly_GetCoef R' k) =
                  complex_add (conv B q k) (Poly_GetCoef R k)
    | _, _ => False
    end.
Proof.
  intros HwB HdB HwR Hge.
  pose proof (well_formed_lead B HwB HdB) as HlB.
  assert (HlR : coef_at R (deg R) <> CZero) by (apply well_formed_lead; [assumption|lia]).
  set (t := deg R - deg B).
  destruct (complex_div_defined (Poly_LeadCoef R) (Poly_LeadCoef B) HlB) as [c Hc].
  pose proof (complex_div_mult _ _ _ Hc) as Hcb. unfold Poly_LeadCoef in Hcb.
  assert (Hcnz : c <> CZero).
  { intros ->. apply HlR. rewrite <- Hcb. ring. }
  destruct (term_spec t c) as (T0 & Hinit & HdT & HT); [lia|assumption|].
  cbv zeta in HdT, HT. set (T1 := poly_set_coef T0 t c) in *.
  (* T2 = T1 * B *)
  destruct (poly_multiply_spec T1 B) as (M & HM & HdM & _ & HcM); [lia|].
  assert (HgM : forall k, Poly_GetCoef M k = complex_mult c (Poly_GetCoef B (k - t))).
  { intros k. destruct (Z_lt_le_dec k 0) as [Hk|Hk].
    { rewrite !GetCoef_out by lia. ring. }
    destruct (Z_lt_le_dec (deg M) k) as [Hk'|Hk'].
    { rewrite !GetCoef_out by lia. ring. }
    rewrite GetCoef_in by lia. rewrite HcM by lia.
    apply conv_term_l; [lia|exact HT]. }
  (* T1 = R - T2, resized *)
  destruct (poly_sub_spec R M) as (S & HS & HaS & HdS & _ & HnzS & HgS); [lia|].
  assert (HltS : deg S < deg R).
  { destruct (Z.eq_dec (deg S) (deg R)) as [Heq|Hne]; [exfalso|lia].
    assert (Hne : deg S <> -1) by lia. specialize (HnzS Hne).
    rewrite <- GetCoef_in in HnzS by (destruct HaS; lia).
    rewrite HgS, HgM, Heq in HnzS.
    replace (deg R - t) with (deg B) in HnzS by (unfold t; lia).
    rewrite !GetCoef_in in HnzS by lia. rewrite Hcb in HnzS.
    replace (complex_sub (coef_at R (deg R)) (coef_at R (deg R))) with CZero in HnzS by ring.
    rewrite complex_iszero_CZero in HnzS. discriminate. }
  destruct (poly_copy_well_formed S HaS HnzS) as (R' & HR' & HwR' & HdR' & HgR').
  assert (Hrel : forall q q',
            (forall k, Poly_GetCoef q' k =
                       complex_add (Poly_GetCoef q k) (Poly_GetCoef T1 k)) ->
            forall k, complex_add (conv B q' k) (Poly_GetCoef R' k) =
                      complex_add (conv B q k) (Poly_GetCoef R k)).
  { intros q q' Hq k.
    rewrite (conv_add_r B q' q T1 k Hq).
    rewrite (conv_term_r T1 B t c k) by (lia || exact HT).
    rewrite HgR', HgS, HgM. ring. }
  unfold div_iteration. fold t. rewrite Hinit, Hc. cbv zeta. fold T1.
  destruct Q as [q|].
  - destruct (div_quotient_spec q T1) as (q' & Hq' & Hwq' & Hgq'); [lia|].
    rewrite Hq', HM, HS, HR'.
    exists (Some q'), R'. split; [reflexivity|]. split; [exact HwR'|].
    split; [lia|]. split; [exact Hwq'|].
    apply Hrel. exact Hgq'.
  - simpl div_quotient. rewrite HM, HS, HR'.
    exists None, R'. split; [reflexivity|]. split; [exact HwR'|].
    split; [lia|exact I].
Qed.

(** *** The division loop *)

Lemma div_loop_spec (B : Polynomial) :
  well_formed B -> 0 <= deg B ->
  forall (fuel : nat) (Q : option Polynomial) (R : Polynomial),
  well_formed R -> deg R - deg B + 1 <= Z.of_nat fuel ->
  exists Q' R',
    div_loop fuel (Poly_LeadCoef B) B Q R = Ret {| ret := 1; Qout := Q'; Rout := R' |} /\
    well_formed R' /\ deg R' < deg B /\
    match Q, Q' with
    | None, None => True
    | Some q, Some q' =>
        (deg B <= deg R -> well_formed q') /\
        (deg R < deg B -> q' = q) /\
        forall k, complex_add (conv B q' k) (Poly_GetCoef R' k) =
                  complex_add (conv B q k) (Poly_GetCoef R k)
    | _, _ => False
    end.
Proof.
  intros HwB HdB fuel. induction fuel as [|fuel IH]; intros Q R HwR Hfuel.
  - simpl. destruct (Z.leb_spec 0 (deg R - deg B)); [lia|].
    exists Q, R. split; [reflexivity|]. split; [assumption|]. split; [lia|].
    destruct Q; [|exact I]. split; [lia|]. split; reflexivity.
  - simpl. destruct (Z.leb_spec 0 (deg R - deg B)) as [Hrun|Hstop].
    + destruct (div_iteration_spec B Q R) as (Q1 & R1 & Hit & HwR1 & Hlt & HQ1);
        [assumption|assumption|assumption|lia|].
      rewrite Hit.
      destruct (IH Q1 R1 HwR1) as (Q' & R' & Hloop & HwR' & HdR' & HQ'); [lia|].
      exists Q', R'. split; [exact Hloop|]. split; [assumption|]. split; [assumption|].
      destruct Q as [q|], Q1 as [q1|]; try contradiction;
        destruct Q' as [q'|]; try contradiction; [|exact I].
      destruct HQ1 as [Hwq1 Hrel1]. destruct HQ' as (Hwq' & Hsame & Hrel').
      split; [|split; [lia|]].
      * intros _. destruct (Z_lt_le_dec (deg R1) (deg B)) as [Hl|Hl].
        -- rewrite (Hsame Hl). exact Hwq1.
        -- apply Hwq'. exact Hl.
      * intros k. rewrite Hrel'. apply Hrel1.
    + exists Q, R. split; [reflexivity|]. split; [assumption|]. split; [lia|].
      destruct Q; [|exact I]. split; [lia|]. split; reflexivity.
Qed.

(** The start of [poly_div]: the quotient is a block of [deg A + 1] zeros
    under the degree of [A], the remainder a copy of [A]. *)
Lemma poly_div_start (fuel : nat) (A B : Polynomial) (Q : option Polynomial)
    (R : Polynomial) :
  well_formed A -> deg B <> -1 ->
  exists Q0 R0,
    poly_div fuel A B Q R = div_loop fuel (Poly_LeadCoef B) B Q0 R0 /\
    well_formed R0 /\ deg R0 = deg A /\
    (forall k, Poly_GetCoef R0 k = Poly_GetCoef A k) /\
    match Q, Q0 with
    | None, None => True
    | Some _, Some q0 =>
        deg q0 = deg A /\ allocated q0 /\ forall k, Poly_GetCoef q0 k = CZero
    | _, _ => False
    end.
Proof.
  intros HwA HB. unfold poly_div.
  destruct (Z.eqb_spec (deg B) (-1)); [contradiction|].
  pose proof (well_formed_deg A HwA) as HdA.
  destruct HwA as [HaA [_ HnzA]].
  destruct (poly_copy_well_formed A HaA) as (R0 & HR0 & HwR0 & HdR0 & HgR0).
  { intros Hne. apply HnzA. exact Hne. }
  destruct Q as [qd|]; simpl option_map; cbv iota.
  - destruct (poly_init_spec (deg A) HdA) as (q0 & Hq0 & Hdq0 & Hlq0 & Hzq0 & _).
    rewrite Hq0, HR0. exists (Some q0), R0.
    split; [reflexivity|]. split; [assumption|]. split; [assumption|]. split; [assumption|].
    split; [assumption|]. split.
    + split; [lia|]. rewrite Hdq0, Hlq0. lia.
    + intros k. unfold Poly_GetCoef. rewrite Hzq0. destruct (_ || _); reflexivity.
  - rewrite HR0. exists None, R0.
    split; [reflexivity|]. split; [assumption|]. split; [assumption|]. split; [assumption|].
    exact I.
Qed.

End Operators.

(** ** Euclidean division in exact arithmetic: the identity and the end of
    the loop *)

Section Division.
Context {D : Double} {E : ExactField D}.

Add Ring complex_ring'' : complex_ring.

(** In exact arithmetic: for well-formed [A] and [B] with [deg B >= 0],
    [poly_div] returns 1 with a quotient [Q] and a remainder [R] such that
    [poly_multiply B Q] and then [poly_add] with [R] succeed and give a
    polynomial that [poly_equal] finds equal to [A], and [deg R < deg B].  The
    loop has finished within [deg A - deg B + 1] rounds. *)
Lemma poly_div_exact (A B Qd Rd : Polynomial) (fuel : nat) :
  well_formed A -> well_formed B -> 0 <= deg B ->
  deg A - deg B + 1 <= Z.of_nat fuel ->
  exists Q R,
    poly_div fuel A B (Some Qd) Rd = Ret {| ret := 1; Qout := Some Q; Rout := R |} /\
    (exists M S, poly_multiply B Q = Some M /\ poly_add M R = Some S /\
                 poly_equal S A = true) /\
    deg R < deg B.
Proof.
  intros HwA HwB HdB Hfuel.
  destruct (poly_div_start fuel A B (Some Qd) Rd HwA) as (Q0 & R0 & Hstart & HwR0 & HdR0 & HgR0 & HQ0);
    [lia|].
  destruct Q0 as [q0|]; [|contradiction]. destruct HQ0 as (Hdq0 & Haq0 & Hzq0).
  destruct (div_loop_spec B HwB HdB fuel (Some q0) R0 HwR0) as (Q' & R & Hloop & HwR & HdR & HQ');
    [lia|].
  destruct Q' as [Q|]; [|contradiction]. destruct HQ' as (HwQ & Hsame & Hrel).
  exists Q, R. split; [rewrite Hstart; exact Hloop|]. split; [|exact HdR].
  (* the degree of the quotient is at least -1 *)
  assert (HdQ : -1 <= deg Q).
  { destruct (Z_lt_le_dec (deg R0) (deg B)) as [Hl|Hl].
    - rewrite (Hsame Hl). destruct Haq0; lia.
    - apply well_formed_deg. apply HwQ. exact Hl. }
  (* A = B * Q + R, coefficient by coefficient *)
  assert (Hid : forall k, complex_add (conv B Q k) (Poly_GetCoef R k) = Poly_GetCoef A k).
  { intros k. rewrite Hrel, HgR0. rewrite (conv_zero_r B q0 k Hzq0). ring. }
  destruct (poly_multiply_spec B Q) as (M & HM & HdM & _ & HcM); [lia|].
  assert (HgM : forall k, Poly_GetCoef M k = conv B Q k).
  { intros k. destruct (Z_lt_le_dec k 0) as [Hk|Hk].
    { rewrite GetCoef_out by lia. unfold conv.
      replace (Z.to_nat (k + 1)) with O by lia. reflexivity. }
    destruct (Z_lt_le_dec (deg M) k) as [Hk'|Hk'].
    { rewrite GetCoef_out by lia. symmetry. apply conv_above. lia. }
    rewrite GetCoef_in by lia. apply HcM. lia. }
  pose proof (well_formed_deg R HwR) as HdR1.
  destruct (poly_add_spec M R) as (S & HS & HaS & _ & _ & HnzS & HgS); [lia|].
  exists M, S. split; [exact HM|]. split; [exact HS|].
  assert (HSA : forall k, Poly_GetCoef S k = Poly_GetCoef A k).
  { intros k. rewrite HgS, HgM. apply Hid. }
  pose proof (well_formed_deg A HwA) as HdA.
  assert (Hdeg : deg S = deg A).
  { apply same_coefficients_same_degree; auto.
    - destruct HaS; lia.
    - destruct HwA as [_ [_ H]]. intros Hne. apply H. exact Hne. }
  apply poly_equal_intro; [exact Hdeg|].
  intros i Hi. rewrite <- !GetCoef_in by lia. apply HSA.
Qed.

(** In exact arithmetic: with a well-formed divisor [B] of degree at least 0,
    a round of the loop entered with a well-formed [R], [deg R >= deg B], ends
    with a well-formed [R'] of strictly smaller degree (the zero polynomial,
    of degree -1, included); so [poly_div] has returned 1 after at most
    [deg A - deg B + 1] rounds, with [deg R < deg B]. *)
Lemma poly_div_exact_terminates (A B : Polynomial) (Qd : option Polynomial) (Rd : Polynomial) :
  well_formed A -> well_formed B -> 0 <= deg B ->
  (forall Q R, well_formed R -> deg B <= deg R ->
     exists Q' R', div_iteration (Poly_LeadCoef B) B Q R = Ret (inr (Q', R')) /\
                   well_formed R' /\ deg R' < deg R) /\
  (forall fuel, deg A - deg B + 1 <= Z.of_nat fuel ->
     exists st, poly_div fuel A B Qd Rd = Ret st /\ ret st = 1 /\
                deg (Rout st) < deg B).
Proof.
  intros HwA HwB HdB. split.
  - intros Q R HwR Hge.
    destruct (div_iteration_spec B Q R HwB HdB HwR Hge) as (Q' & R' & Hit & HwR' & Hlt & _).
    exists Q', R'. auto.
  - intros fuel Hfuel.
    destruct (poly_div_start fuel A B Qd Rd HwA) as (Q0 & R0 & Hstart & HwR0 & HdR0 & _);
      [lia|].
    destruct (div_loop_spec B HwB HdB fuel Q0 R0 HwR0) as (Q' & R & Hloop & HwR & HdR & _);
      [lia|].
    eexists. split; [rewrite Hstart; exact Hloop|]. split; [reflexivity|exact HdR].
Qed.

End Division.

Section Zero_divisor.
Context {D : Double}.

(** C5. With a divisor of degree -1, [poly_div] returns -1, whatever [A], the
    destinations and the fuel: not 1 (success) and not 0 (a refused
    allocation). *)
Theorem poly_div_zero_divisor_code (fuel : nat) (A B : Polynomial)
    (Q : option Polynomial) (R : Polynomial) :
  deg B = -1 ->
  exists st, poly_div fuel A B Q R = Ret st /\
             ret st = -1 /\ ret st <> 1 /\ ret st <> 0.
Proof.
  intro HB. unfold poly_div. rewrite HB. simpl.
  eexists. split; [reflexivity|]. simpl. repeat split; lia.
Qed.

(** C10. With a divisor of degree -1, [poly_div] returns with [*Q] and [*R]
    holding what they held at the call. *)
Theorem poly_div_zero_divisor_untouched (fuel : nat) (A B : Polynomial)
    (Q : option Polynomial) (R : Polynomial) :
  deg B = -1 ->
  exists st, poly_div fuel A B Q R = Ret st /\ Qout st = Q /\ Rout st = R.
Proof.
  intro HB. unfold poly_div. rewrite HB. simpl.
  eexists. split; [reflexivity|]. split; reflexivity.
Qed.

End Zero_divisor.

(** ** Addition, negation, power, evaluation *)

Section Arithmetic.
Context {D : Double} {E : ExactField D}.

Add Ring complex_ring''' : complex_ring.

(** C9. [poly_add A B] and [poly_add B A] are the same result: the same
    degree and the same block of coefficients; [poly_equal] finds them
    equal. *)
Theorem poly_add_commutative (A B : Polynomial) :
  poly_add A B = poly_add B A /\
  (forall S S', poly_add A B = Some S -> poly_add B A = Some S' ->
                deg S = deg S' /\ coef S = coef S' /\ poly_equal S S' = true).
Proof.
  assert (H : poly_add A B = poly_add B A).
  { unfold poly_add. rewrite (Z.max_comm (deg B) (deg A)).
    destruct (poly_init _) as [R|]; [|reflexivity].
    f_equal. f_equal. unfold for_upto. apply for_loop_ext.
    intros i P _. rewrite complex_add_comm. reflexivity. }
  split; [exact H|].
  intros S S' HS HS'. rewrite H, HS' in HS. injection HS as ->.
  split; [reflexivity|]. split; [reflexivity|].
  apply poly_equal_intro; reflexivity.
Qed.

Lemma coef_for_loop_set_slot (g : Z -> Complex) (n : nat) (lo : Z) (P : Polynomial) :
  let P' := for_loop n lo (fun i R => set_slot R i (g i)) P in
  coef P' = match coef P with Some _ => Some (slots P') | None => None end.
Proof.
  revert lo P. induction n as [|n IH]; intros lo P; simpl.
  - unfold slots. destruct (coef P); reflexivity.
  - rewrite IH. unfold set_slot at 2; simpl. destruct (coef P); reflexivity.
Qed.

(** C6, as the code has it. For a well-formed [A], [poly_add A (poly_neg A)]
    has degree -1; its block is the one [poly_add] obtained for the sum,
    [deg A + 1] slots that all hold zero, and [coef] is NULL only when [A] is
    itself of degree -1. *)
Theorem poly_add_neg_zero (A : Polynomial) :
  well_formed A ->
  exists N S, poly_neg A = Some N /\ poly_add A N = Some S /\
              deg S = -1 /\
              coef S = if deg A =? -1 then None
                       else Some (repeat CZero (Z.to_nat (deg A + 1))).
Proof.
  intro HwA. pose proof (well_formed_deg A HwA) as HdA.
  destruct (poly_neg_spec A HdA) as (N & HN & HdN & _ & HcN).
  exists N. unfold poly_add. rewrite HdN, Z.max_id.
  destruct (poly_init_spec (deg A) HdA) as (R & Hinit & HdR & HlR & _ & HcR).
  rewrite Hinit. eexists. split; [exact HN|]. split; [reflexivity|].
  set (g := fun i => complex_add (Poly_GetCoef A i) (Poly_GetCoef N i)).
  destruct (fill_fresh g (deg A) (deg A) R) as (Fd & Fl & Flow & Fhigh);
    [lia|lia|exact Hinit|].
  set (R1 := for_upto (deg A) (fun i R => set_slot R i (g i)) R) in *.
  assert (Hz : forall k, 0 <= k -> coef_at R1 k = CZero).
  { intros k Hk0. destruct (Z_lt_le_dec (deg A) k) as [Hk|Hk]; [apply Fhigh; exact Hk|].
    rewrite Flow by lia. unfold g. rewrite !GetCoef_in by lia.
    rewrite HcN by lia. ring. }
  split.
  - change (deg (Poly_Resize R1) = -1). apply Poly_Resize_deg.
    + rewrite Fd. lia.
    + intros H; contradiction.
    + intros k Hk. apply Hz. lia.
  - change (coef R1 = if deg A =? -1 then None
                      else Some (repeat CZero (Z.to_nat (deg A + 1)))).
    unfold R1, for_upto. rewrite coef_for_loop_set_slot. rewrite HcR.
    destruct (Z.eqb_spec (deg A) (-1)) as [Heq|Hne]; [reflexivity|].
    f_equal. fold (for_upto (deg A) (fun i R => set_slot R i (g i)) R). fold R1.
    apply (nth_ext _ _ CZero CZero).
    + rewrite Fl, repeat_length. reflexivity.
    + intros n _. rewrite nth_repeat.
      specialize (Hz (Z.of_nat n) (Nat2Z.is_nonneg n)).
      unfold coef_at in Hz. rewrite Nat2Z.id in Hz. exact Hz.
Qed.

Lemma Poly_InitConst_value (c : Complex) :
  Poly_InitConst c =
  Some {| deg := if complex_iszero c then -1 else 0; coef := Some [c] |}.
Proof.
  unfold Poly_InitConst, poly_init, poly_set_coef, Poly_Resize, set_slot, slots; simpl.
  destruct (complex_iszero c); reflexivity.
Qed.

(** C7. Whatever the base [A], [poly_pow A 0] is the constant one: degree 0
    and the coefficient 1 in slot 0. *)
Theorem poly_pow_zero_exponent (A : Polynomial) :
  exists R, poly_pow A 0 = Some R /\ deg R = 0 /\ coef R = Some [COne] /\
            coef_at R 0 = COne.
Proof.
  unfold poly_pow. fold COne. rewrite Poly_InitConst_value, complex_iszero_COne.
  eexists. split; [reflexivity|]. repeat split.
Qed.

(** C8. The constant polynomial built from [c] evaluates to [c] at every
    point, and a polynomial of degree -1 evaluates to [CZero] at every
    point. *)
Theorem poly_eval_constant (c x : Complex) :
  (exists P, Poly_InitConst c = Some P /\ poly_eval P x = c) /\
  (forall Z, deg Z = -1 -> poly_eval Z x = CZero).
Proof.
  split.
  - rewrite Poly_InitConst_value. eexists. split; [reflexivity|].
    unfold poly_eval. simpl deg.
    destruct (complex_iszero c) eqn:Hc; simpl.
    + symmetry. apply complex_iszero_true. exact Hc.
    + unfold coef_at; simpl. ring.
  - intros Z HZ. unfold poly_eval. rewrite HZ. reflexivity.
Qed.

End Arithmetic.

(** ** What holds whatever the arithmetic *)

Section Shapes.
Context {D : Double}.

Lemma resize_from_shape (l : list Complex) (n : nat) :
  -1 <= resize_from l n < Z.of_nat n /\
  (resize_from l n <> -1 ->
   complex_iszero (nth (Z.to_nat (resize_from l n)) l CZero) = false).
Proof.
  induction n as [|n IH]; simpl.
  - split; [lia|]. intros H; contradiction.
  - destruct (complex_iszero (nth n l CZero)) eqn:Hz.
    + destruct IH as [Hr Hnz]. split; [lia|exact Hnz].
    + split; [lia|]. intros _. rewrite Nat2Z.id. exact Hz.
Qed.

Lemma resize_from_top (l : list Complex) (n : nat) :
  resize_from l (S n) < Z.of_nat n <-> complex_iszero (nth n l CZero) = true.
Proof.
  simpl. destruct (complex_iszero (nth n l CZero)) eqn:Hz.
  - pose proof (resize_from_shape l n). split; [reflexivity|lia].
  - split; [lia|discriminate].
Qed.

Lemma well_formedb_intro (P : Polynomial) :
  -1 <= deg P -> deg P + 1 <= Z.of_nat (length (slots P)) ->
  (deg P <> -1 -> complex_iszero (coef_at P (deg P)) = false) ->
  well_formedb P = true.
Proof.
  intros H1 H2 H3. unfold well_formedb.
  rewrite !andb_true_iff, orb_true_iff, negb_true_iff, !Z.leb_le, Z.eqb_eq.
  split; [split; assumption|].
  destruct (Z.eq_dec (deg P) (-1)); [left; assumption|right; auto].
Qed.

Lemma well_formedb_elim (P : Polynomial) :
  well_formedb P = true ->
  -1 <= deg P /\ deg P + 1 <= Z.of_nat (length (slots P)) /\
  (deg P <> -1 -> complex_iszero (coef_at P (deg P)) = false).
Proof.
  unfold well_formedb.
  rewrite !andb_true_iff, orb_true_iff, negb_true_iff, !Z.leb_le, Z.eqb_eq.
  intros [[H1 H2] H3]. split; [assumption|]. split; [assumption|].
  intros Hne. destruct H3; [contradiction|assumption].
Qed.

(** [Poly_Resize] on a polynomial that holds its slots [0..deg]. *)
Lemma Poly_Resize_shape (P : Polynomial) :
  -1 <= deg P -> deg P + 1 <= Z.of_nat (length (slots P)) ->
  well_formedb (Poly_Resize P) = true /\
  deg (Poly_Resize P) <= deg P /\
  (0 <= deg P ->
   (deg (Poly_Resize P) < deg P <-> complex_iszero (coef_at P (deg P)) = true)).
Proof.
  intros Hd Hl.
  pose proof (resize_from_shape (slots P) (Z.to_nat (deg P + 1))) as [Hr Hnz].
  change (resize_from (slots P) (Z.to_nat (deg P + 1))) with (deg (Poly_Resize P)) in *.
  split; [|split].
  - apply well_formedb_intro.
    + lia.
    + change (slots (Poly_Resize P)) with (slots P). lia.
    + exact Hnz.
  - lia.
  - intros Hpos. unfold coef_at.
    pose proof (resize_from_top (slots P) (Z.to_nat (deg P))) as Htop.
    replace (S (Z.to_nat (deg P))) with (Z.to_nat (deg P + 1)) in Htop by lia.
    change (resize_from (slots P) (Z.to_nat (deg P + 1))) with (deg (Poly_Resize P)) in Htop.
    rewrite <- Htop. lia.
Qed.

(** The loop of [poly_add] and [poly_sub] followed by [Poly_Resize]. *)
Lemma pointwise_shape (op : Complex -> Complex -> Complex) (A B R : Polynomial) :
  let m := Z.max (deg A) (deg B) in
  -1 <= m -> poly_init m = Some R ->
  let S := Poly_Resize
             (for_upto m
                (fun i R => set_slot R i (op (Poly_GetCoef A i) (Poly_GetCoef B i))) R) in
  well_formedb S = true /\ deg S <= m /\
  (0 <= m ->
   (deg S < m <-> complex_iszero (op (Poly_GetCoef A m) (Poly_GetCoef B m)) = true)).
Proof.
  intros m Hm Hinit S.
  set (g := fun i => op (Poly_GetCoef A i) (Poly_GetCoef B i)).
  destruct (fill_fresh g m m R) as (Fd & Fl & Flow & _); [lia|lia|exact Hinit|].
  set (R1 := for_upto m (fun i R => set_slot R i (g i)) R) in *.
  change S with (Poly_Resize R1).
  destruct (Poly_Resize_shape R1) as (Hw & Hle & Hstrict).
  - rewrite Fd. exact Hm.
  - rewrite Fd, Fl. lia.
  - rewrite Fd in *. split; [exact Hw|]. split; [exact Hle|].
    intros Hpos. rewrite (Hstrict Hpos), Flow by lia. reflexivity.
Qed.

Lemma poly_add_shape (A B : Polynomial) :
  -1 <= Z.max (deg A) (deg B) ->
  exists S, poly_add A B = Some S /\ well_formedb S = true /\
            deg S <= Z.max (deg A) (deg B).
Proof.
  intros Hm. unfold poly_add.
  destruct (poly_init_spec _ Hm) as (R & Hinit & _). rewrite Hinit.
  destruct (pointwise_shape complex_add A B R Hm Hinit) as (Hw & Hle & _).
  eexists. split; [reflexivity|]. split; assumption.
Qed.

Lemma poly_sub_shape (A B : Polynomial) :
  let m := Z.max (deg A) (deg B) in
  -1 <= m ->
  exists S, poly_sub A B = Some S /\ well_formedb S = true /\ deg S <= m /\
            (0 <= m ->
             (deg S < m <->
              complex_iszero (complex_sub (Poly_GetCoef A m) (Poly_GetCoef B m)) = true)).
Proof.
  intros m Hm. unfold poly_sub. fold m.
  destruct (poly_init_spec _ Hm) as (R & Hinit & _). rewrite Hinit.
  destruct (pointwise_shape complex_sub A B R Hm Hinit) as (Hw & Hle & Hs).
  eexists. split; [reflexivity|]. split; [exact Hw|]. split; [exact Hle|exact Hs].
Qed.

Lemma poly_copy_shape (S : Polynomial) :
  well_formedb S = true ->
  exists P, poly_copy S = Some P /\ well_formedb P = true /\ deg P = deg S.
Proof.
  intros Hw. apply well_formedb_elim in Hw. destruct Hw as (Hd & Hl & Hnz).
  destruct (poly_copy_spec S Hd) as (P & HP & HdP & HlP & HatP & _).
  exists P. split; [exact HP|]. split; [|exact HdP].
  apply well_formedb_intro.
  - lia.
  - rewrite HdP, HlP. lia.
  - intros Hne. rewrite HdP in *. rewrite HatP by lia. auto.
Qed.

(** [poly_multiply] stores the product under the sum of the degrees, in a
    block of as many slots plus one, and does not resize it. *)
Lemma poly_multiply_shape_of (A B : Polynomial) :
  -1 <= deg A + deg B ->
  exists M, poly_multiply A B = Some M /\ deg M = deg A + deg B /\
            Z.of_nat (length (slots M)) = deg A + deg B + 1.
Proof.
  intros Hd. unfold poly_multiply.
  destruct (poly_init_spec _ Hd) as (R & Hinit & HdR & Hl & _). rewrite Hinit.
  eexists. split; [reflexivity|].
  assert (Hkeep : forall (n : nat) (lo : Z) (body : Z -> Polynomial -> Polynomial) P,
            (forall i Q, deg (body i Q) = deg Q /\
                         length (slots (body i Q)) = length (slots Q)) ->
            deg (for_loop n lo body P) = deg P /\
            length (slots (for_loop n lo body P)) = length (slots P)).
  { intros n. induction n as [|n IH]; intros lo body P Hbody; simpl; [auto|].
    destruct (IH (lo + 1) body (body lo P) Hbody) as [H1 H2].
    destruct (Hbody lo P) as [H3 H4]. split; congruence. }
  unfold for_upto.
  destruct (Hkeep (Z.to_nat (deg A + deg B + 1)) 0
              (fun i R =>
                 for_loop (Z.to_nat (i + 1)) 0
                   (fun j R =>
                      accumulate R i
                        (complex_mult (Poly_GetCoef A j) (Poly_GetCoef B (i - j)))) R)
              R) as [H1 H2].
  - intros i Q. apply Hkeep. intros j Q'. unfold accumulate.
    split; [reflexivity|apply length_set_slot].
  - split; [congruence|]. rewrite H2, Hl. lia.
Qed.

(** The term [poly_div] builds in [T1]: its degree is at most [t]. *)
Lemma term_shape (t : Z) (c : Complex) :
  0 <= t ->
  exists T0, poly_init t = Some T0 /\ -1 <= deg (poly_set_coef T0 t c) <= t.
Proof.
  intros Ht. destruct (poly_init_spec t) as (T0 & Hinit & Hd & Hl & _); [lia|].
  exists T0. split; [exact Hinit|].
  assert (Hb : (deg T0 <? t) && negb (complex_iszero c) = false)
    by (rewrite Hd, Z.ltb_irrefl; reflexivity).
  unfold poly_set_coef. rewrite deg_set_slot, Hb.
  destruct (Poly_Resize_shape (set_slot T0 t c)) as (Hw & Hle & _).
  - rewrite deg_set_slot. lia.
  - rewrite deg_set_slot, length_set_slot, Hl. lia.
  - apply well_formedb_elim in Hw. destruct Hw as (Hlo & _).
    rewrite deg_set_slot in Hle. lia.
Qed.

Lemma div_quotient_shape (q T1 : Polynomial) :
  -1 <= deg T1 ->
  exists q', div_quotient (Some q) T1 = inr (Some q') /\ well_formedb q' = true.
Proof.
  intros HT. unfold div_quotient.
  destruct (poly_add_shape q T1) as (T2 & HT2 & Hw & _); [lia|]. rewrite HT2.
  destruct (poly_copy_shape T2 Hw) as (q' & Hq' & Hwq' & _). rewrite Hq'.
  exists q'. split; [reflexivity|exact Hwq'].
Qed.

(** A round of the loop of [poly_div], whatever the arithmetic: it takes the
    [EDOM] branch of [complex_div], or it ends with a well-formed [R'] of
    degree at most [deg R], of smaller degree exactly when the leading
    coefficient of [R] minus the coefficient of the same degree of [T1 * B]
    tests equal to zero. *)
Lemma div_iteration_shape (lc : Complex) (B : Polynomial) (Q : option Polynomial)
    (R : Polynomial) :
  0 <= deg B -> deg B <= deg R ->
  match complex_div (Poly_LeadCoef R) lc with
  | None => div_iteration lc B Q R = Indeterminate
  | Some c =>
      exists T0 T2 Q' R',
        poly_init (deg R - deg B) = Some T0 /\
        poly_multiply (poly_set_coef T0 (deg R - deg B) c) B = Some T2 /\
        div_iteration lc B Q R = Ret (inr (Q', R')) /\
        well_formedb R' = true /\ deg R' <= deg R /\
        (deg R' < deg R <->
         complex_iszero (complex_sub (Poly_LeadCoef R) (Poly_GetCoef T2 (deg R))) = true) /\
        match Q, Q' with
        | None, None => True
        | Some _, Some q' => well_formedb q' = true
        | _, _ => False
        end
  end.
Proof.
  intros HdB Hge. unfold div_iteration.
  destruct (complex_div (Poly_LeadCoef R) lc) as [c|] eqn:Hc.
  2:{ destruct (poly_init_spec (deg R - deg B)) as (T0 & Hinit & _); [lia|].
      rewrite Hinit. reflexivity. }
  destruct (term_shape (deg R - deg B) c) as (T0 & Hinit & [Hlo Hhi]); [lia|].
  rewrite Hinit. cbv zeta. set (T1 := poly_set_coef T0 (deg R - deg B) c) in *.
  destruct (poly_multiply_shape_of T1 B) as (T2 & HT2' & HdT2 & _); [lia|].
  destruct (poly_sub_shape R T2) as (S & HS & HwS & HleS & HsS).
  { rewrite HdT2. lia. }
  replace (Z.max (deg R) (deg T2)) with (deg R) in * by lia.
  destruct (poly_copy_shape S HwS) as (R' & HR' & HwR' & HdR').
  assert (Hstrict : deg R' < deg R <->
            complex_iszero (complex_sub (Poly_LeadCoef R) (Poly_GetCoef T2 (deg R))) = true).
  { rewrite HdR', HsS by lia. unfold Poly_LeadCoef. rewrite GetCoef_in by lia.
    reflexivity. }
  destruct Q as [q|].
  - destruct (div_quotient_shape q T1) as (q' & Hq' & Hwq'); [lia|].
    rewrite Hq', HT2', HS, HR'.
    exists T0, T2, (Some q'), R'.
    split; [reflexivity|]. split; [exact HT2'|]. split; [reflexivity|].
    split; [exact HwR'|]. split; [lia|]. split; [exact Hstrict|exact Hwq'].
  - simpl div_quotient. rewrite HT2', HS, HR'.
    exists T0, T2, None, R'.
    split; [reflexivity|]. split; [exact HT2'|]. split; [reflexivity|].
    split; [exact HwR'|]. split; [lia|]. split; [exact Hstrict|exact I].
Qed.

(** The loop of [poly_div], whatever the arithmetic: if it ends, it ends with
    the return value 1, [deg R < deg B] and a well-formed [R]; the quotient is
    well formed once a round has been made. *)
Lemma div_loop_shape (lc : Complex) (B : Polynomial) :
  0 <= deg B ->
  forall (fuel : nat) (Q : option Polynomial) (R : Polynomial) (st : div_state),
  div_loop fuel lc B Q R = Ret st ->
  ret st = 1 /\ deg (Rout st) < deg B /\
  (well_formedb R = true -> well_formedb (Rout st) = true) /\
  match Q, Qout st with
  | None, None => True
  | Some q, Some q' =>
      well_formedb q = true \/ deg B <= deg R -> well_formedb q' = true
  | _, _ => False
  end.
Proof.
  intros HdB fuel. induction fuel as [|fuel IH]; intros Q R st; simpl.
  - destruct (Z.leb_spec 0 (deg R - deg B)); [discriminate|].
    intros [= <-]. simpl. split; [reflexivity|]. split; [lia|]. split; [auto|].
    destruct Q; [|exact I]. intros [H'|H']; [exact H'|lia].
  - destruct (Z.leb_spec 0 (deg R - deg B)) as [Hrun|Hstop].
    + pose proof (div_iteration_shape lc B Q R HdB) as Hit.
      destruct (complex_div (Poly_LeadCoef R) lc) as [c|].
      2:{ rewrite Hit by lia. discriminate. }
      destruct Hit as (T0 & T2 & Q1 & R1 & _ & _ & Hit & HwR1 & _ & _ & HQ1); [lia|].
      rewrite Hit. intros Hloop.
      destruct (IH Q1 R1 st Hloop) as (Hret & Hdeg & HwR & HQ).
      split; [exact Hret|]. split; [exact Hdeg|]. split; [auto|].
      destruct Q as [q|], Q1 as [q1|]; try contradiction;
        destruct (Qout st) as [q'|]; try contradiction; [|exact I].
      intros _. apply HQ. left. exact HQ1.
    + intros [= <-]. simpl. split; [reflexivity|]. split; [lia|]. split; [auto|].
      destruct Q; [|exact I]. intros [H'|H']; [exact H'|lia].
Qed.

Lemma poly_div_shape (A B Qd Rd : Polynomial) (fuel : nat) (st : div_state) :
  well_formedb A = true -> 0 <= deg B ->
  poly_div fuel A B (Some Qd) Rd = Ret st ->
  ret st = 1 /\ deg (Rout st) < deg B /\ well_formedb (Rout st) = true /\
  exists Q, Qout st = Some Q /\
            (deg A = -1 \/ deg B <= deg A -> well_formedb Q = true).
Proof.
  intros HwA HdB. unfold poly_div.
  destruct (Z.eqb_spec (deg B) (-1)); [lia|].
  destruct (well_formedb_elim A HwA) as (HdA & _).
  destruct (poly_init_spec (deg A) HdA) as (q0 & Hq0 & Hdq0 & Hlq0 & _).
  destruct (poly_copy_shape A HwA) as (R0 & HR0 & HwR0 & HdR0).
  simpl option_map. cbv iota. rewrite Hq0, HR0. intros Hloop.
  destruct (div_loop_shape _ B HdB fuel (Some q0) R0 st Hloop) as (Hret & Hdeg & HwR & HQ).
  split; [exact Hret|]. split; [exact Hdeg|]. split; [auto|].
  destruct (Qout st) as [Q|]; [|contradiction].
  exists Q. split; [reflexivity|]. intros [Hz|Hge].
  - apply HQ. left. apply well_formedb_intro.
    + lia.
    + rewrite Hdq0, Hlq0. lia.
    + intros Hne. lia.
  - apply HQ. right. lia.
Qed.

End Shapes.

(** ** The degree invariant across the operators *)

Section Degree_invariant.
Context {D : Double} {E : ExactField D}.

Add Ring complex_ring_inv : complex_ring.

Lemma poly_init_minus_one_well_formed :
  exists Z, poly_init (-1) = Some Z /\ well_formed Z.
Proof.
  eexists. split; [reflexivity|]. apply well_formed_intro; simpl; try lia.
Qed.

Lemma poly_initX_well_formed : exists X, poly_initX = Some X /\ well_formed X.
Proof.
  unfold poly_initX.
  destruct (poly_init_spec 1) as (P & HP & Hd & Hl & _); [lia|]. rewrite HP.
  eexists. split; [reflexivity|].
  apply poly_set_coef_allocated.
  - split; rewrite ?Hd, ?Hl; lia.
  - rewrite Hl. lia.
Qed.

Lemma poly_add_well_formed (A B : Polynomial) :
  well_formed A -> well_formed B -> exists S, poly_add A B = Some S /\ well_formed S.
Proof.
  intros HA HB. apply well_formed_deg in HA, HB.
  destruct (poly_add_spec A B) as (S & HS & [Hd Hl] & _ & _ & Hnz & _); [lia|].
  exists S. split; [exact HS|]. apply well_formed_intro; assumption.
Qed.

Lemma poly_sub_well_formed (A B : Polynomial) :
  well_formed A -> well_formed B -> exists S, poly_sub A B = Some S /\ well_formed S.
Proof.
  intros HA HB. apply well_formed_deg in HA, HB.
  destruct (poly_sub_spec A B) as (S & HS & [Hd Hl] & _ & _ & Hnz & _); [lia|].
  exists S. split; [exact HS|]. apply well_formed_intro; assumption.
Qed.

Lemma poly_neg_well_formed (A : Polynomial) :
  well_formed A -> exists N, poly_neg A = Some N /\ well_formed N.
Proof.
  intros HA. pose proof (well_formed_deg A HA) as Hd.
  destruct (poly_neg_spec A Hd) as (N & HN & HdN & HlN & HcN).
  exists N. split; [exact HN|]. apply well_formed_intro.
  - lia.
  - rewrite HdN, HlN. lia.
  - intros Hne. rewrite HdN in *. rewrite HcN by lia.
    apply complex_iszero_false, complex_neg_nonzero, well_formed_lead; [assumption|lia].
Qed.

(** The product of two well-formed polynomials of degree at least 0 is well
    formed, of degree the sum of the degrees. *)
Lemma poly_multiply_well_formed (A B : Polynomial) :
  well_formed A -> well_formed B -> 0 <= deg A -> 0 <= deg B ->
  exists M, poly_multiply A B = Some M /\ well_formed M /\ deg M = deg A + deg B.
Proof.
  intros HA HB HdA HdB.
  destruct (poly_multiply_spec A B) as (M & HM & HdM & HlM & HcM); [lia|].
  exists M. split; [exact HM|]. split; [|exact HdM].
  apply well_formed_intro.
  - lia.
  - rewrite HdM, HlM. lia.
  - intros _. rewrite HcM by lia. rewrite HdM, conv_top by assumption.
    apply complex_iszero_false, complex_mult_nonzero; apply well_formed_lead; assumption.
Qed.

(** [poly_pow] with the exponent 0 builds the constant one and with the
    exponent 1 copies the base. *)
Lemma poly_pow_small_well_formed (A : Polynomial) (n : nat) :
  well_formed A -> (n <= 1)%nat ->
  exists R, poly_pow A n = Some R /\ well_formed R.
Proof.
  intros HA Hn. destruct n as [|m].
  - unfold poly_pow. fold COne. rewrite Poly_InitConst_value, complex_iszero_COne.
    eexists. split; [reflexivity|].
    apply well_formed_intro; simpl; try lia.
    intros _. apply complex_iszero_COne.
  - unfold poly_pow.
    destruct (poly_copy_well_formed A) as (R & HR & HwR & HdR & _).
    { apply HA. }
    { destruct HA as [_ [_ H]]. intros Hne. apply H. exact Hne. }
    rewrite HR. replace m with O by lia. simpl. exists R. split; [reflexivity|assumption].
Qed.

Lemma poly_derive_well_formed (A : Polynomial) :
  well_formed A -> exists R, poly_derive A = Some R /\ well_formed R.
Proof.
  intros HA. pose proof (well_formed_deg A HA) as Hd.
  destruct (poly_derive_spec A Hd) as (R & HR & HdR & HlR & HcR).
  exists R. split; [exact HR|]. apply well_formed_intro.
  - lia.
  - rewrite HdR, HlR. lia.
  - intros Hne. rewrite HdR in *.
    assert (H1 : 1 <= deg A) by lia.
    replace (Z.max (-1) (deg A - 1)) with (deg A - 1) by lia.
    rewrite HcR by lia. replace (deg A - 1 + 1) with (deg A) by lia.
    apply complex_iszero_false, complex_mult_nonzero.
    + apply complex_of_int_nonzero. lia.
    + apply well_formed_lead; [assumption|lia].
Qed.

Lemma well_formed_test (P : Polynomial) : well_formed P -> well_formedb P = true.
Proof.
  intros [[Hd Hl] [_ Hnz]]. apply well_formedb_intro; try assumption.
  intros Hne. apply Hnz. exact Hne.
Qed.

(** C3, as the code has it. The degree invariant (and a block that holds the
    slots [0..deg]) holds of: [poly_init(-1)]; [poly_initX]; [poly_set_coef]
    at a slot of the block; the copy, sum, difference, negation and derivative
    of well-formed polynomials; [poly_pow] with the exponent 0 or 1; the
    remainder of a division that returns, which then returns 1, and its
    quotient when [A] is of degree -1 or of degree at least [deg B]. *)
Theorem operators_keep_degree_invariant
    (A B P Qd Rd : Polynomial) (i : Z) (c : Complex) (n fuel : nat) :
  well_formed A -> well_formed B ->
  allocated P -> 0 <= i < Z.of_nat (length (slots P)) ->
  (exists Z, poly_init (-1) = Some Z /\ well_formed Z) /\
  (exists X, poly_initX = Some X /\ well_formed X) /\
  well_formed (poly_set_coef P i c) /\
  (exists R, poly_copy A = Some R /\ well_formed R) /\
  (exists R, poly_add A B = Some R /\ well_formed R) /\
  (exists R, poly_sub A B = Some R /\ well_formed R) /\
  (exists R, poly_neg A = Some R /\ well_formed R) /\
  ((n <= 1)%nat -> exists R, poly_pow A n = Some R /\ well_formed R) /\
  (exists R, poly_derive A = Some R /\ well_formed R) /\
  (0 <= deg B ->
   forall st, poly_div fuel A B (Some Qd) Rd = Ret st ->
     ret st = 1 /\ well_formed (Rout st) /\
     exists Q, Qout st = Some Q /\
               (deg A = -1 \/ deg B <= deg A -> well_formed Q)).
Proof.
  intros HA HB HP Hi.
  split; [apply poly_init_minus_one_well_formed|].
  split; [apply poly_initX_well_formed|].
  split; [apply poly_set_coef_allocated; assumption|].
  split.
  { destruct (poly_copy_well_formed A) as (R & HR & HwR & _).
    - apply HA.
    - destruct HA as [_ [_ H]]. intros Hne. apply H. exact Hne.
    - exists R. auto. }
  split; [apply poly_add_well_formed; assumption|].
  split; [apply poly_sub_well_formed; assumption|].
  split; [apply poly_neg_well_formed; assumption|].
  split; [apply poly_pow_small_well_formed; assumption|].
  split; [apply poly_derive_well_formed; assumption|].
  intros HdB st Hrun.
  destruct (poly_div_shape A B Qd Rd fuel st (well_formed_test A HA) HdB Hrun)
    as (Hret & _ & HwR & Q & HQ & HwQ).
  split; [exact Hret|]. split; [apply well_formedb_correct; exact HwR|].
  exists Q. split; [exact HQ|]. intros Hcase. apply well_formedb_correct. auto.
Qed.

End Degree_invariant.

(** ** The code run on the rationals *)

Section Runs.
Import Examples.

Ltac by_run := vm_compute; first [reflexivity | discriminate | intro; discriminate].

Lemma run_well_formed (P : @Polynomial QcDouble) :
  well_formedb P = true -> well_formed P.
Proof. apply well_formedb_correct. Qed.

(** The scenarios the documentation of the repository lists. *)
Example div_X_by_one :
  match poly_div 2 X one (Some stale) stale with
  | Ret st => (ret st, option_map show (Qout st), show (Rout st))
              = (1, Some (show X), (-1, []))
  | _ => False
  end.
Proof. by_run. Qed.

Example div_X2m1_by_Xm1 :
  match poly_div 2 X2m1 Xm1 (Some stale) stale with
  | Ret st => (ret st, option_map show (Qout st), show (Rout st))
              = (1, Some (show (of_ints [1; 1])), (-1, []))
  | _ => False
  end.
Proof. by_run. Qed.

Example div_zero_by_X :
  match poly_div 0 zero X (Some stale) stale with
  | Ret st => (ret st, option_map show (Qout st), show (Rout st))
              = (1, Some (-1, []), (-1, []))
  | _ => False
  end.
Proof. by_run. Qed.

Example multiply_Xp1_Xm1 :
  option_map show (poly_multiply (of_ints [1; 1]) Xm1) = Some (show X2m1).
Proof. by_run. Qed.

Example pow_two_three : option_map show (poly_pow (of_ints [2]) 3) = Some (show (of_ints [8])).
Proof. by_run. Qed.

(** When [0 <= deg A < deg B] the loop is not entered and the quotient is
    left as [poly_init(Q, A->deg)] made it: zeros under the degree of [A]. *)
Example div_one_by_X :
  match poly_div 0 one X (Some stale) stale with
  | Ret st => (ret st, option_map show (Qout st), show (Rout st),
               option_map well_formedb (Qout st))
              = (1, Some (0, [(0, 0)]%Q), show one, Some false)
  | _ => False
  end.
Proof. by_run. Qed.

(** C2, at the code: the product of the zero polynomial and [X^2] is stored
    under the degree [-1 + 2 = 1], with two zero coefficients and no
    [Poly_Resize], and is not the zero polynomial for [poly_equal]; the product
    of the zero polynomial with itself asks [poly_init] for the degree -2 and
    returns 0. *)
Theorem poly_multiply_zero_operand :
  well_formed zero /\ well_formed X2 /\ deg zero = -1 /\
  (exists M, poly_multiply zero X2 = Some M /\ deg M = 1 /\
             show M = (1, [(0, 0); (0, 0)]%Q) /\
             well_formedb M = false /\ poly_equal M zero = false) /\
  poly_multiply zero zero = None.
Proof.
  split; [apply run_well_formed; reflexivity|].
  split; [apply run_well_formed; reflexivity|].
  split; [reflexivity|]. split; [|reflexivity].
  eexists. split; [reflexivity|]. repeat split.
Qed.

(** C3 fails at [poly_init(P, 0)]: it returns 1 and leaves the degree 0 over
    a single coefficient that is zero. *)
Lemma poly_init_breaks_invariant :
  exists P, @poly_init QcDouble 0 = Some P /\ deg P = 0 /\
            complex_iszero (coef_at P 0) = true /\ ~ degree_invariant P.
Proof.
  eexists. split; [reflexivity|]. split; [reflexivity|]. split; [reflexivity|].
  intros [_ H]. destruct H as [_ H]; [discriminate|]. discriminate H.
Qed.

(** C3, at [A = X^2 - 1], [B = X - 1], the slot 2 of [roomy] set to 3, the
    first power of [A] and two rounds of division. *)
Lemma operators_keep_degree_invariant_witness :
  well_formed X2m1 /\ well_formed Xm1 /\ allocated roomy /\
  0 <= 2 < Z.of_nat (length (slots roomy)) /\
  well_formed (poly_set_coef roomy 2 (C 3 0)) /\
  (exists R, poly_add X2m1 Xm1 = Some R /\ well_formed R) /\
  (exists R, poly_pow X2m1 1 = Some R /\ well_formed R) /\
  (exists R, poly_derive X2m1 = Some R /\ well_formed R) /\
  (forall st, poly_div 2 X2m1 Xm1 (Some stale) stale = Ret st ->
     ret st = 1 /\ well_formed (Rout st) /\
     exists Q, Qout st = Some Q /\ well_formed Q).
Proof.
  assert (HA : well_formed X2m1) by (apply run_well_formed; reflexivity).
  assert (HB : well_formed Xm1) by (apply run_well_formed; reflexivity).
  assert (HP : allocated roomy) by (split; apply Z.leb_le; reflexivity).
  assert (Hi : 0 <= 2 < Z.of_nat (length (slots roomy)))
    by (split; [apply Z.leb_le|apply Z.ltb_lt]; reflexivity).
  assert (HdB : 0 <= deg Xm1) by (apply Z.leb_le; reflexivity).
  assert (Hge : deg X2m1 = -1 \/ deg Xm1 <= deg X2m1)
    by (right; apply Z.leb_le; reflexivity).
  repeat (split; [assumption|]).
  destruct (operators_keep_degree_invariant X2m1 Xm1 roomy stale stale 2 (C 3 0) 1 2
              HA HB HP Hi)
    as (_ & _ & Hset & _ & Hadd & _ & _ & Hpow & Hder & Hdiv).
  split; [exact Hset|]. split; [exact Hadd|].
  split; [exact (Hpow (le_n 1))|]. split; [exact Hder|].
  intros st Hrun. destruct (Hdiv HdB st Hrun) as (Hret & HwR & Q & HQ & HwQ).
  split; [exact Hret|]. split; [exact HwR|]. exists Q. split; [exact HQ|exact (HwQ Hge)].
Defined.

(** C5, at [X^2 - 1] divided by the zero polynomial. *)
Lemma poly_div_zero_divisor_code_witness :
  deg zero = -1 /\
  exists st, poly_div 0 X2m1 zero (Some stale) stale = Ret st /\
             ret st = -1 /\ ret st <> 1 /\ ret st <> 0.
Proof.
  split; [reflexivity|].
  exact (poly_div_zero_divisor_code 0 X2m1 zero (Some stale) stale eq_refl).
Defined.

(** C10, at [X^2 - 1] divided by the zero polynomial, the destinations
    holding [X] and [one]. *)
Lemma poly_div_zero_divisor_untouched_witness :
  deg zero = -1 /\
  exists st, poly_div 5 X2m1 zero (Some X) one = Ret st /\
             Qout st = Some X /\ Rout st = one.
Proof.
  split; [reflexivity|].
  exact (poly_div_zero_divisor_untouched 5 X2m1 zero (Some X) one eq_refl).
Defined.

(** C6 fails at the constant 1: the sum with its negation has degree -1 and
    still owns the slot [poly_add] obtained for it. *)
Lemma poly_add_neg_keeps_block :
  well_formed one /\
  exists N S, poly_neg one = Some N /\ poly_add one N = Some S /\
              deg S = -1 /\ show S = (-1, [(0, 0)]%Q) /\ coef S <> None.
Proof.
  split; [apply run_well_formed; reflexivity|].
  eexists. eexists. split; [reflexivity|]. split; [reflexivity|].
  split; [reflexivity|]. split; [reflexivity|]. discriminate.
Qed.

(** C6, at [X^2 - 1]. *)
Lemma poly_add_neg_zero_witness :
  well_formed X2m1 /\
  exists N S, poly_neg X2m1 = Some N /\ poly_add X2m1 N = Some S /\
              deg S = -1 /\
              coef S = if deg X2m1 =? -1 then None
                       else Some (repeat CZero (Z.to_nat (deg X2m1 + 1))).
Proof.
  assert (HA : well_formed X2m1) by (apply run_well_formed; reflexivity).
  split; [exact HA|]. exact (poly_add_neg_zero X2m1 HA).
Defined.

(** C7, at the zero polynomial. *)
Lemma poly_pow_zero_exponent_witness :
  ExactField QcDouble /\
  exists R, poly_pow zero 0 = Some R /\ deg R = 0 /\ coef R = Some [COne] /\
            coef_at R 0 = COne.
Proof.
  split; [exact QcExact|]. exact (poly_pow_zero_exponent zero).
Defined.

(** C8, at the constant [3 + 2i] and the point [5 - i]. *)
Lemma poly_eval_constant_witness :
  ExactField QcDouble /\
  (exists P, Poly_InitConst (C 3 2) = Some P /\ poly_eval P (C 5 (-1)) = C 3 2) /\
  (forall Z, deg Z = -1 -> poly_eval Z (C 5 (-1)) = CZero).
Proof.
  split; [exact QcExact|]. exact (poly_eval_constant (C 3 2) (C 5 (-1))).
Defined.

(** C9, at [X^2 - 1] and [X - 1]. *)
Lemma poly_add_commutative_witness :
  ExactField QcDouble /\
  poly_add X2m1 Xm1 = poly_add Xm1 X2m1 /\
  (forall S S', poly_add X2m1 Xm1 = Some S -> poly_add Xm1 X2m1 = Some S' ->
                deg S = deg S' /\ coef S = coef S' /\ poly_equal S S' = true).
Proof.
  split; [exact QcExact|]. exact (poly_add_commutative X2m1 Xm1).
Defined.

End Runs.

(** ** Evaluation *)

Section Evaluation.
Context {D : Double} {E : ExactField D}.

Add Ring complex_ring_eval : complex_ring.

Lemma zsum_scale_l (n : nat) (lo : Z) (c : Complex) (f : Z -> Complex) :
  zsum n lo (fun j => complex_mult c (f j)) = complex_mult c (zsum n lo f).
Proof.
  revert lo. induction n as [|n IH]; intros lo; simpl; [ring|]. rewrite IH. ring.
Qed.

(** Horner's loop, started with [s], over the coefficients [0..n-1]. *)
Lemma horner_loop (P : Polynomial) (x : Complex) (n : nat) (s : Complex) :
  for_downto n (fun i result => complex_add (complex_mult result x) (coef_at P i)) s
  = complex_add (complex_mult s (complex_pow x n)) (value_of (coef_at P) x n).
Proof.
  revert s. induction n as [|n IH]; intros s.
  - unfold value_of. simpl. ring.
  - cbn [for_downto]. rewrite IH. unfold value_of. rewrite zsum_snoc.
    replace (0 + Z.of_nat n) with (Z.of_nat n) by lia. rewrite Nat2Z.id.
    simpl complex_pow. ring.
Qed.

Lemma value_of_ext (f g : Z -> Complex) (x : Complex) (n : nat) :
  (forall i, 0 <= i < Z.of_nat n -> f i = g i) -> value_of f x n = value_of g x n.
Proof.
  intro H. unfold value_of. apply zsum_ext. intros j Hj. rewrite H by lia. reflexivity.
Qed.

Lemma value_of_neg (f : Z -> Complex) (x : Complex) (n : nat) :
  value_of (fun i => complex_neg (f i)) x n = complex_neg (value_of f x n).
Proof.
  unfold value_of.
  rewrite (zsum_ext _ _ _
             (fun i => complex_mult (complex_neg COne)
                         (complex_mult (f i) (complex_pow x (Z.to_nat i))))).
  - rewrite zsum_scale_l. ring.
  - intros j _. ring.
Qed.

Lemma poly_eval_value_of (P : Polynomial) (x : Complex) :
  poly_eval P x = value_of (coef_at P) x (Z.to_nat (deg P + 1)).
Proof. unfold poly_eval. rewrite horner_loop. ring. Qed.

(** The value of the negation is the negation of the value. *)
Theorem poly_eval_neg (A : Polynomial) (x : Complex) :
  -1 <= deg A ->
  exists N, poly_neg A = Some N /\ poly_eval N x = complex_neg (poly_eval A x).
Proof.
  intros HA. destruct (poly_neg_spec A HA) as (N & HN & HdN & _ & HcN).
  exists N. split; [exact HN|].
  rewrite !poly_eval_value_of, HdN, <- value_of_neg.
  apply value_of_ext. intros i Hi. apply HcN. lia.
Qed.

End Evaluation.

(** ** Complex division, [Poly_Resize], [poly_set_coef], [poly_equal] *)

Section Representation.
Context {D : Double} {E : ExactField D}.

Add Field double_field_rep : d_field.
Add Ring complex_ring_rep : complex_ring.

Lemma complex_div_by_zero (a : Complex) : complex_div a CZero = None.
Proof.
  unfold complex_div, CZero; simpl.
  replace (d0 * d0 + d0 * d0)%D with d0 by ring. rewrite deqb_refl. reflexivity.
Qed.

Lemma resize_from_again (l : list Complex) (n : nat) :
  resize_from l (Z.to_nat (resize_from l n + 1)) = resize_from l n.
Proof.
  destruct (resize_from_spec l n) as (Hr & Hnz & _).
  set (d := resize_from l n) in *.
  destruct (Z.eq_dec d (-1)) as [->|Hne]; [reflexivity|].
  replace (Z.to_nat (d + 1)) with (S (Z.to_nat d)) by lia.
  simpl. rewrite (Hnz Hne). lia.
Qed.

(** [Poly_Resize] changes nothing when run a second time; it changes no
    coefficient, and what it returns satisfies the degree invariant. *)
Theorem Poly_Resize_idempotent (P : Polynomial) :
  -1 <= deg P ->
  Poly_Resize (Poly_Resize P) = Poly_Resize P /\
  (forall k, Poly_GetCoef (Poly_Resize P) k = Poly_GetCoef P k) /\
  degree_invariant (Poly_Resize P).
Proof.
  intros Hd. split; [|split].
  - unfold Poly_Resize. cbn [deg coef]. f_equal.
    change (slots {| deg := resize_from (slots P) (Z.to_nat (deg P + 1));
                     coef := coef P |}) with (slots P).
    apply resize_from_again.
  - apply Poly_Resize_spec. exact Hd.
  - destruct (Poly_Resize_spec P Hd) as (_ & Hr & Hnz & _).
    apply degree_invariant_intro; [lia|exact Hnz].
Qed.

Lemma cleanb_correct (P : Polynomial) : -1 <= deg P -> cleanb P = true -> clean P.
Proof.
  intros Hd H k Hk Hlt. unfold cleanb in H. rewrite forallb_forall in H.
  unfold coef_at.
  destruct (Nat.lt_ge_cases (Z.to_nat k) (length (slots P))) as [Hin|Hout].
  - apply complex_iszero_true. apply H.
    replace (Z.to_nat k) with (Z.to_nat (deg P + 1) + (Z.to_nat k - Z.to_nat (deg P + 1)))%nat
      by lia.
    rewrite <- nth_skipn. apply nth_In. rewrite length_skipn. lia.
  - apply nth_overflow. exact Hout.
Qed.

Lemma poly_init_clean (d : Z) :
  -1 <= d -> exists P, poly_init d = Some P /\ allocated P /\ clean P.
Proof.
  intros Hd. destruct (poly_init_spec d Hd) as (P & HP & HdP & Hl & Hz & _).
  exists P. split; [exact HP|]. split.
  - split; rewrite ?HdP, ?Hl; lia.
  - intros k _ _. apply Hz.
Qed.

(** On a polynomial whose block is zero above the degree, [poly_set_coef]
    sets the coefficient [i] to [c] and changes no other coefficient; the
    block stays zero above the new degree. *)
Theorem poly_set_coef_lookup (P : Polynomial) (i : Z) (c : Complex) :
  allocated P -> clean P -> 0 <= i < Z.of_nat (length (slots P)) ->
  (forall k, Poly_GetCoef (poly_set_coef P i c) k
             = if k =? i then c else Poly_GetCoef P k) /\
  allocated (poly_set_coef P i c) /\ clean (poly_set_coef P i c).
Proof.
  intros [Hd Hl] Hclean Hi.
  assert (Hslot : forall k, 0 <= k ->
            coef_at (set_slot P i c) k = if k =? i then c else coef_at P k).
  { intros k Hk. destruct (Z.eqb_spec k i) as [->|Hne].
    - apply coef_at_set_slot_same. exact Hi.
    - apply coef_at_set_slot_other; lia. }
  split; [|split; [apply (poly_set_coef_allocated P i c); [split; assumption|exact Hi]|]].
  - intros k. unfold poly_set_coef. rewrite deg_set_slot.
    destruct ((deg P <? i) && negb (complex_iszero c)) eqn:Hb.
    + apply andb_true_iff in Hb. destruct Hb as [Hlt _]. apply Z.ltb_lt in Hlt.
      unfold Poly_GetCoef at 1. simpl deg.
      change (coef_at {| deg := i; coef := coef (set_slot P i c) |} k)
        with (coef_at (set_slot P i c) k).
      destruct (Z.ltb_spec k 0) as [Hk|Hk]; simpl.
      { destruct (Z.eqb_spec k i); [lia|]. rewrite GetCoef_out by lia. reflexivity. }
      destruct (Z.ltb_spec i k) as [Hk'|Hk'].
      { destruct (Z.eqb_spec k i); [lia|]. rewrite GetCoef_out by lia. reflexivity. }
      rewrite Hslot by lia. destruct (Z.eqb_spec k i); [reflexivity|].
      destruct (Z_lt_le_dec (deg P) k).
      * rewrite GetCoef_out by lia. apply Hclean; lia.
      * rewrite GetCoef_in by lia. reflexivity.
    + destruct (Poly_Resize_spec (set_slot P i c)) as (_ & _ & _ & _ & Hget).
      { rewrite deg_set_slot. exact Hd. }
      rewrite Hget.
      assert (Hc : deg P < i -> c = CZero).
      { intros Hlt. apply complex_iszero_true.
        apply andb_false_iff in Hb. destruct Hb as [Hb|Hb].
        - apply Z.ltb_ge in Hb. lia.
        - apply negb_false_iff in Hb. exact Hb. }
      destruct (Z_lt_le_dec k 0) as [Hk|Hk].
      { rewrite !GetCoef_out by (rewrite ?deg_set_slot; lia).
        destruct (Z.eqb_spec k i); [lia|reflexivity]. }
      destruct (Z_lt_le_dec (deg P) k) as [Hk'|Hk'].
      { rewrite !GetCoef_out by (rewrite ?deg_set_slot; lia).
        destruct (Z.eqb_spec k i) as [->|]; [symmetry; apply Hc; lia|reflexivity]. }
      rewrite !GetCoef_in by (rewrite ?deg_set_slot; lia). apply Hslot. lia.
  - intros k Hk Hlt. unfold poly_set_coef in *. rewrite deg_set_slot in *.
    destruct ((deg P <? i) && negb (complex_iszero c)) eqn:Hb.
    + apply andb_true_iff in Hb. destruct Hb as [Hlt' _]. apply Z.ltb_lt in Hlt'.
      simpl deg in Hlt.
      change (coef_at {| deg := i; coef := coef (set_slot P i c) |} k)
        with (coef_at (set_slot P i c) k).
      rewrite Hslot by lia. destruct (Z.eqb_spec k i); [lia|]. apply Hclean; lia.
    + destruct (Poly_Resize_spec (set_slot P i c)) as (_ & Hr & _ & Hzero & _).
      { rewrite deg_set_slot. exact Hd. }
      rewrite deg_set_slot in *.
      change (coef_at (Poly_Resize (set_slot P i c)) k) with (coef_at (set_slot P i c) k).
      destruct (Z_lt_le_dec (deg P) k) as [Hk'|Hk'].
      * rewrite Hslot by lia. destruct (Z.eqb_spec k i) as [->|].
        -- apply complex_iszero_true.
           apply andb_false_iff in Hb. destruct Hb as [Hb|Hb].
           ++ apply Z.ltb_ge in Hb. lia.
           ++ apply negb_false_iff in Hb. exact Hb.
        -- apply Hclean; lia.
      * apply Hzero. lia.
Qed.

Lemma poly_equal_true (P Q : Polynomial) :
  poly_equal P Q = true ->
  deg P = deg Q /\ forall i, 0 <= i <= deg P -> coef_at P i = coef_at Q i.
Proof.
  unfold poly_equal. destruct (Z.eqb_spec (deg P) (deg Q)) as [Hd|Hd]; simpl;
    [|discriminate].
  intros H. split; [exact Hd|]. intros i Hi.
  rewrite forallb_forall in H.
  assert (Hin : In i (map Z.of_nat (seq 0 (Z.to_nat (deg P + 1))))).
  { apply in_map_iff. exists (Z.to_nat i). split; [lia|]. apply in_seq. lia. }
  specialize (H i Hin). apply negb_true_iff, orb_false_iff in H.
  destruct H as [Hre Him]. apply negb_false_iff, d_eqb_eq in Hre, Him.
  destruct (coef_at P i), (coef_at Q i); simpl in *. congruence.
Qed.

(** [poly_equal] answers 1 exactly when the degrees are equal and the
    coefficients [0..deg] are equal; what a block holds above the degree is
    not compared. *)
Theorem poly_equal_spec (P Q : Polynomial) :
  poly_equal P Q = true <->
  deg P = deg Q /\ forall i, 0 <= i <= deg P -> coef_at P i = coef_at Q i.
Proof.
  split.
  - apply poly_equal_true.
  - intros [Hd Hc]. apply poly_equal_intro; assumption.
Qed.

(** Polynomials that [poly_equal] finds equal have the same value at every
    point. *)
Theorem poly_equal_eval (P Q : Polynomial) (x : Complex) :
  poly_equal P Q = true -> poly_eval P x = poly_eval Q x.
Proof.
  intros H. apply poly_equal_true in H. destruct H as [Hd Hc].
  rewrite !poly_eval_value_of, <- Hd. apply value_of_ext. intros i Hi. apply Hc. lia.
Qed.

End Representation.

(** ** How the operators compose *)

Section Algebra.
Context {D : Double} {E : ExactField D}.

Add Ring complex_ring_alg : complex_ring.

(** Two results with the same coefficients, each of degree -1 or with a
    leading coefficient that is not zero, are equal for [poly_equal]. *)
Lemma poly_equal_of_coefficients (P Q : Polynomial) :
  -1 <= deg P -> -1 <= deg Q ->
  (deg P <> -1 -> complex_iszero (coef_at P (deg P)) = false) ->
  (deg Q <> -1 -> complex_iszero (coef_at Q (deg Q)) = false) ->
  (forall k, Poly_GetCoef P k = Poly_GetCoef Q k) ->
  poly_equal P Q = true.
Proof.
  intros HP HQ HlP HlQ Heq.
  pose proof (same_coefficients_same_degree P Q HP HQ HlP HlQ Heq) as Hd.
  apply poly_equal_intro; [exact Hd|].
  intros i Hi. rewrite <- !GetCoef_in by lia. apply Heq.
Qed.

Lemma well_formed_normal (P : Polynomial) :
  well_formed P -> deg P <> -1 -> complex_iszero (coef_at P (deg P)) = false.
Proof. intros [_ [_ H]] Hne. apply H. exact Hne. Qed.

(** [poly_copy] returns a polynomial that [poly_equal] finds equal to the
    source, in a block of exactly [deg + 1] slots (none for the degree -1),
    whatever the size of the block of the source. *)
Theorem poly_copy_equal (A : Polynomial) :
  allocated A ->
  exists P, poly_copy A = Some P /\ poly_equal P A = true /\
            Z.of_nat (length (slots P)) = deg A + 1 /\
            (deg A = -1 -> coef P = None).
Proof.
  intros [Hd Hl].
  destruct (poly_copy_spec A Hd) as (P & HP & HdP & HlP & HatP & _).
  exists P. split; [exact HP|]. split; [|split].
  - apply poly_equal_intro; [exact HdP|]. intros i Hi. apply HatP. lia.
  - rewrite HlP. lia.
  - intros Hm. unfold poly_copy in HP. rewrite Hm in HP. simpl in HP.
    injection HP as <-. reflexivity.
Qed.

(** Negating twice gives a polynomial equal to the first. *)
Theorem poly_neg_involutive (A : Polynomial) :
  -1 <= deg A ->
  exists N M, poly_neg A = Some N /\ poly_neg N = Some M /\ poly_equal M A = true.
Proof.
  intros Hd. destruct (poly_neg_spec A Hd) as (N & HN & HdN & _ & HcN).
  destruct (poly_neg_spec N) as (M & HM & HdM & _ & HcM); [lia|].
  exists N, M. split; [exact HN|]. split; [exact HM|].
  apply poly_equal_intro; [lia|].
  intros i Hi. rewrite HcM, HcN by lia. ring.
Qed.

Lemma GetCoef_neg (A N : Polynomial) :
  -1 <= deg A -> poly_neg A = Some N ->
  deg N = deg A /\ forall k, Poly_GetCoef N k = complex_neg (Poly_GetCoef A k).
Proof.
  intros Hd HN. destruct (poly_neg_spec A Hd) as (N' & HN' & HdN & _ & HcN).
  rewrite HN in HN'. injection HN' as <-. split; [exact HdN|].
  intros k. destruct (Z_lt_le_dec k 0) as [Hk|Hk].
  { rewrite !GetCoef_out by lia. ring. }
  destruct (Z_lt_le_dec (deg A) k) as [Hk'|Hk'].
  { rewrite !GetCoef_out by lia. ring. }
  rewrite !GetCoef_in by lia. apply HcN. lia.
Qed.

(** [poly_sub A B] returns what [poly_add] returns for [A] and the negation
    of [B]: the same degree and the same block. *)
Theorem poly_sub_is_add_neg (A B : Polynomial) :
  -1 <= deg B ->
  exists N, poly_neg B = Some N /\ poly_sub A B = poly_add A N.
Proof.
  intros Hd. destruct (poly_neg_spec B Hd) as (N & HN & _).
  destruct (GetCoef_neg B N Hd HN) as [HdN HgN].
  exists N. split; [exact HN|].
  unfold poly_sub, poly_add. rewrite HdN.
  destruct (poly_init _) as [R|]; [|reflexivity].
  f_equal. f_equal. unfold for_upto. apply for_loop_ext.
  intros i P _. rewrite HgN. f_equal. ring.
Qed.

(** Adding a polynomial of degree -1 to a well-formed [A] gives a polynomial
    equal to [A]. *)
Theorem poly_add_zero (A Z : Polynomial) :
  well_formed A -> deg Z = -1 ->
  exists S, poly_add A Z = Some S /\ poly_equal S A = true.
Proof.
  intros HwA HZ. pose proof (well_formed_deg A HwA) as HdA.
  destruct (poly_add_spec A Z) as (S & HS & [HdS _] & _ & _ & HnzS & HgS); [lia|].
  exists S. split; [exact HS|].
  apply poly_equal_of_coefficients; auto.
  - apply well_formed_normal. exact HwA.
  - intros k. rewrite HgS, (GetCoef_out Z) by lia. ring.
Qed.

(** Multiplying a well-formed polynomial by the constant one gives a
    polynomial equal to it. *)
Theorem poly_multiply_one (A : Polynomial) :
  well_formed A ->
  exists I M, Poly_InitConst COne = Some I /\ poly_multiply A I = Some M /\
              poly_equal M A = true.
Proof.
  intros HwA. pose proof (well_formed_deg A HwA) as HdA.
  rewrite Poly_InitConst_value, complex_iszero_COne.
  set (I := {| deg := 0; coef := Some [COne] |}).
  assert (HgI : forall j, Poly_GetCoef I j = if j =? 0 then COne else CZero).
  { intros j. destruct (Z.eqb_spec j 0) as [->|Hne]; [reflexivity|].
    apply GetCoef_out. simpl. lia. }
  destruct (poly_multiply_spec A I) as (M & HM & HdM & _ & HcM); [simpl; lia|].
  exists I, M. split; [reflexivity|]. split; [exact HM|].
  simpl in HdM. apply poly_equal_intro; [lia|].
  intros i Hi. rewrite HcM by (simpl; lia).
  rewrite (conv_term_r I A 0 COne i) by (lia || exact HgI).
  replace (i - 0) with i by lia. rewrite GetCoef_in by lia. ring.
Qed.

End Algebra.

(** ** Derivative, power and the edges of the division *)

Section Edges.
Context {D : Double}.

(** The derivative of a polynomial of degree 0 or -1 is the polynomial of
    degree -1 that owns no block. *)
Theorem poly_derive_constant (A : Polynomial) :
  -1 <= deg A <= 0 -> poly_derive A = Some {| deg := -1; coef := None |}.
Proof.
  intros Hd. unfold poly_derive.
  replace (Z.max (-1) (deg A - 1)) with (-1) by lia. simpl.
  unfold for_upto. replace (Z.to_nat (deg A - 1 + 1)) with O by lia. reflexivity.
Qed.

Lemma pow_loop_succ (A : Polynomial) (m : nat) :
  forall R, pow_loop (S m) A R
            = match pow_loop m A R with
              | Some T => poly_multiply T A
              | None => None
              end.
Proof.
  induction m as [|m IH]; intros R.
  - simpl. destruct (poly_multiply R A); reflexivity.
  - change (pow_loop (S (S m)) A R)
      with (match poly_multiply R A with
            | Some T => pow_loop (S m) A T
            | None => None
            end).
    change (pow_loop (S m) A R)
      with (match poly_multiply R A with
            | Some T => pow_loop m A T
            | None => None
            end).
    destruct (poly_multiply R A) as [T|]; [apply IH|reflexivity].
Qed.

(** From the exponent 1 on, the next power is the product of the power and
    the base, and fails when the power or the product does. *)
Theorem poly_pow_succ (A : Polynomial) (n : nat) :
  poly_pow A (S (S n))
  = match poly_pow A (S n) with
    | Some T => poly_multiply T A
    | None => None
    end.
Proof.
  unfold poly_pow. destruct (poly_copy A) as [R|]; [|reflexivity].
  apply pow_loop_succ.
Qed.

(** [poly_pow] returns 0 for a base of degree -1 and an exponent of 2 or
    more: its first product asks [poly_init] for the degree -2. *)
Theorem poly_pow_zero_base (A : Polynomial) (n : nat) :
  deg A = -1 -> (2 <= n)%nat -> poly_pow A n = None.
Proof.
  intros Hd Hn. destruct n as [|[|m]]; try lia.
  unfold poly_pow, poly_copy. rewrite Hd. simpl.
  unfold poly_multiply. simpl deg. rewrite Hd. reflexivity.
Qed.

(** When the dividend is of smaller degree than the divisor, [poly_div]
    returns 1 without a round of its loop: the remainder is the copy of [A]
    and the quotient is the block [poly_init(Q, A->deg)] made, all zeros
    under the degree of [A]. *)
Theorem poly_div_small_dividend (A B Qd Rd : Polynomial) (fuel : nat) :
  -1 <= deg A -> deg A < deg B ->
  exists q0 R0,
    poly_init (deg A) = Some q0 /\ poly_copy A = Some R0 /\
    poly_div fuel A B (Some Qd) Rd
      = Ret {| ret := 1; Qout := Some q0; Rout := R0 |} /\
    deg q0 = deg A /\ (forall k, Poly_GetCoef q0 k = CZero) /\
    (0 <= deg A -> poly_equal q0 {| deg := -1; coef := None |} = false).
Proof.
  intros HdA Hlt. unfold poly_div, poly_copy.
  destruct (Z.eqb_spec (deg B) (-1)) as [|_]; [lia|].
  assert (Hinit : exists q0, poly_init (deg A) = Some q0 /\ deg q0 = deg A /\
                             forall k, coef_at q0 k = CZero).
  { unfold poly_init.
    destruct (Z.eqb_spec (deg A) (-1)) as [Heq|Hne].
    - eexists. split; [reflexivity|]. split; [simpl; lia|].
      intros k. unfold coef_at; simpl. destruct (Z.to_nat k); reflexivity.
    - destruct (Z.ltb_spec (deg A) (-1)); [lia|].
      eexists. split; [reflexivity|]. split; [reflexivity|].
      intros k. unfold coef_at, slots; simpl. apply nth_repeat. }
  destruct Hinit as (q0 & Hq0 & Hdq0 & Hzq0).
  rewrite Hq0. simpl option_map. cbv iota.
  eexists. eexists. split; [reflexivity|]. split; [reflexivity|]. split.
  - destruct fuel; simpl div_loop; rewrite Hdq0;
      destruct (Z.leb_spec 0 (deg A - deg B)); try lia; reflexivity.
  - split; [exact Hdq0|]. split.
    + intros k. unfold Poly_GetCoef. rewrite Hzq0. destruct (_ || _); reflexivity.
    + intros Hpos. unfold poly_equal. rewrite Hdq0. simpl deg.
      destruct (Z.eqb_spec (deg A) (-1)); [lia|reflexivity].
Qed.

(** A run that returns 1 with the quotient asked for returns 1 with the same
    remainder when the caller passes [Q == NULL]. *)
Lemma div_iteration_without_quotient (lc : Complex) (B q : Polynomial)
    (R : Polynomial) (Q1 : option Polynomial) (R1 : Polynomial) :
  div_iteration lc B (Some q) R = Ret (inr (Q1, R1)) ->
  div_iteration lc B None R = Ret (inr (None, R1)).
Proof.
  unfold div_iteration.
  destruct (poly_init (deg R - deg B)) as [T0|]; [|discriminate].
  destruct (complex_div (Poly_LeadCoef R) lc) as [c|]; [|discriminate].
  cbv zeta.
  destruct (div_quotient (Some q) (poly_set_coef T0 (deg R - deg B) c)) as [Qe|Q'];
    [discriminate|].
  simpl div_quotient.
  destruct (poly_multiply _ B) as [T2|]; [|discriminate].
  destruct (poly_sub R T2) as [T1'|]; [|discriminate].
  destruct (poly_copy T1') as [R'|]; [|discriminate].
  intros [= _ <-]. reflexivity.
Qed.

Lemma div_iteration_quotient_kept (lc : Complex) (B q : Polynomial)
    (R : Polynomial) (Q1 : option Polynomial) (R1 : Polynomial) :
  div_iteration lc B (Some q) R = Ret (inr (Q1, R1)) -> exists q1, Q1 = Some q1.
Proof.
  unfold div_iteration.
  destruct (poly_init (deg R - deg B)) as [T0|]; [|discriminate].
  destruct (complex_div (Poly_LeadCoef R) lc) as [c|]; [|discriminate].
  cbv zeta. unfold div_quotient.
  destruct (poly_add q _) as [T2|]; [|discriminate].
  destruct (poly_copy T2) as [q'|]; [|discriminate].
  destruct (poly_multiply _ B) as [T2'|]; [|discriminate].
  destruct (poly_sub R T2') as [T1'|]; [|discriminate].
  destruct (poly_copy T1') as [R'|]; [|discriminate].
  intros [= <- _]. eauto.
Qed.

Lemma div_loop_without_quotient (lc : Complex) (B : Polynomial) (fuel : nat) :
  forall q R Q' R',
  div_loop fuel lc B (Some q) R = Ret {| ret := 1; Qout := Q'; Rout := R' |} ->
  div_loop fuel lc B None R = Ret {| ret := 1; Qout := None; Rout := R' |}.
Proof.
  induction fuel as [|fuel IH]; intros q R Q' R'; simpl.
  - destruct (0 <=? deg R - deg B); [discriminate|]. intros [= _ <-]. reflexivity.
  - destruct (0 <=? deg R - deg B); [|intros [= _ <-]; reflexivity].
    destruct (div_iteration lc B (Some q) R) as [[st|[Q1 R1]]| |] eqn:Hit;
      try discriminate.
    + unfold div_iteration in Hit.
      intros [= ->]. exfalso.
      destruct (poly_init (deg R - deg B)) as [T0|].
      2:{ injection Hit as Hit. discriminate Hit. }
      destruct (complex_div (Poly_LeadCoef R) lc) as [c|]; [|discriminate].
      cbv zeta in Hit.
      destruct (div_quotient _ _) as [Qe|Q1].
      { injection Hit as Hit. discriminate Hit. }
      destruct (poly_multiply _ B) as [T2|].
      2:{ injection Hit as Hit. discriminate Hit. }
      destruct (poly_sub R T2) as [T1'|].
      2:{ injection Hit as Hit. discriminate Hit. }
      destruct (poly_copy T1') as [R1|]; [discriminate|].
      injection Hit as Hit. discriminate Hit.
    + destruct (div_iteration_quotient_kept lc B q R Q1 R1 Hit) as [q1 ->].
      rewrite (div_iteration_without_quotient lc B q R (Some q1) R1 Hit).
      apply IH.
Qed.

End Edges.

Section Edges_exact.
Context {D : Double} {E : ExactField D}.

Add Ring complex_ring_edges : complex_ring.

(** The derivative of a well-formed polynomial of degree at least 1 is well
    formed, of degree one less, and its coefficient [k] is [k + 1] times the
    coefficient [k + 1] of the polynomial. *)
Theorem poly_derive_coefficients (A : Polynomial) :
  well_formed A -> 1 <= deg A ->
  exists R, poly_derive A = Some R /\ well_formed R /\ deg R = deg A - 1 /\
            forall k, 0 <= k <= deg A - 1 ->
              coef_at R k = complex_mult {| real := d_of_int (k + 1); imag := d0 |}
                                         (coef_at A (k + 1)).
Proof.
  intros HwA Hd.
  destruct (poly_derive_well_formed A HwA) as (R & HR & HwR).
  destruct (poly_derive_spec A) as (R' & HR' & HdR & _ & HcR); [lia|].
  rewrite HR in HR'. injection HR' as <-.
  exists R. split; [exact HR|]. split; [exact HwR|]. split; [lia|exact HcR].
Qed.

(** A divisor of degree at least 0 whose leading coefficient is zero sends
    the first round of the loop through the [EDOM] branch of [complex_div]:
    the coefficient of the quotient term is the value the code never set. *)
Theorem poly_div_zero_leading (A B : Polynomial) (Q : option Polynomial)
    (R : Polynomial) (fuel : nat) :
  0 <= deg B -> deg B <= deg A -> Poly_LeadCoef B = CZero ->
  poly_div (S fuel) A B Q R = Indeterminate.
Proof.
  intros HdB Hge Hlead. unfold poly_div.
  destruct (Z.eqb_spec (deg B) (-1)); [lia|].
  destruct (poly_init_spec (deg A)) as (q0 & Hq0 & _); [lia|].
  destruct (poly_copy_spec A) as (R0 & HR0 & HdR0 & _); [lia|].
  assert (Hloop : forall Q0, div_loop (S fuel) (Poly_LeadCoef B) B Q0 R0 = Indeterminate).
  { intros Q0. simpl. rewrite HdR0.
    destruct (Z.leb_spec 0 (deg A - deg B)); [|lia].
    unfold div_iteration. rewrite HdR0.
    destruct (poly_init_spec (deg A - deg B)) as (T0 & HT0 & _); [lia|].
    rewrite HT0, Hlead.
    rewrite complex_div_by_zero. reflexivity. }
  destruct Q as [qd|]; simpl option_map; cbv iota.
  - rewrite Hq0, HR0. apply Hloop.
  - rewrite HR0. apply Hloop.
Qed.

(** [poly_initX] builds the polynomial of degree 1 whose value at every
    point is the point. *)
Theorem poly_initX_eval :
  exists X, poly_initX = Some X /\ deg X = 1 /\ well_formed X /\
            forall x, poly_eval X x = x.
Proof.
  destruct poly_initX_well_formed as (X & HX & HwX).
  exists X. split; [exact HX|].
  unfold poly_initX, poly_init, poly_set_coef, Poly_Resize, set_slot, slots in HX.
  simpl in HX. rewrite complex_iszero_COne in HX. injection HX as <-.
  split; [reflexivity|]. split; [exact HwX|].
  intros x. unfold poly_eval, coef_at; simpl. ring.
Qed.

End Edges_exact.

(** ** Division, product and power whatever the arithmetic *)

Section Any_arithmetic.
Context {D : Double}.







(** [poly_multiply] never resizes: it returns 0 when the degrees add up to
    less than -1, and otherwise a block of [deg A + deg B + 1] slots under
    the degree [deg A + deg B], whatever the coefficients are. *)
Theorem poly_multiply_block (A B : Polynomial) :
  (deg A + deg B < -1 -> poly_multiply A B = None) /\
  (-1 <= deg A + deg B ->
   exists M, poly_multiply A B = Some M /\ deg M = deg A + deg B /\
             Z.of_nat (length (slots M)) = deg A + deg B + 1).
Proof.
  split.
  - intros Hlt. unfold poly_multiply, poly_init.
    destruct (Z.eqb_spec (deg A + deg B) (-1)); [lia|].
    destruct (Z.ltb_spec (deg A + deg B) (-1)); [reflexivity|lia].
  - apply poly_multiply_shape_of.
Qed.

Lemma pow_loop_degree (A : Polynomial) (m : nat) :
  0 <= deg A ->
  forall R, 0 <= deg R ->
  exists T, pow_loop m A R = Some T /\ deg T = deg R + Z.of_nat m * deg A.
Proof.
  intros HdA. induction m as [|m IH]; intros R HdR.
  - exists R. split; [reflexivity|]. simpl. lia.
  - cbn [pow_loop].
    destruct (poly_multiply_shape_of R A) as (M & HM & HdM & _); [lia|].
    rewrite HM.
    destruct (IH M) as (T & HT & HdT); [lia|].
    exists T. split; [exact HT|]. rewrite HdT, HdM. lia.
Qed.

(** [poly_pow] of a base of degree at least 0 with an exponent of at least 1
    returns 1 with a result of degree [n * deg A], whatever the coefficients
    are: no product on the way is resized. *)
Theorem poly_pow_degree_product (A : Polynomial) (n : nat) :
  0 <= deg A -> (1 <= n)%nat ->
  exists R, poly_pow A n = Some R /\ deg R = Z.of_nat n * deg A.
Proof.
  intros HdA Hn. destruct n as [|m]; [lia|]. unfold poly_pow.
  destruct (poly_copy_spec A) as (R0 & HR0 & HdR0 & _); [lia|]. rewrite HR0.
  destruct (pow_loop_degree A m HdA R0) as (T & HT & HdT); [lia|].
  exists T. split; [exact HT|]. rewrite HdT, HdR0. lia.
Qed.

(** A call of [poly_div] that returns 1 with the quotient asked for returns
    1 with the same remainder when the caller passes [Q == NULL], whatever
    the destination [*R] held. *)
Theorem poly_div_null_quotient (A B Qd Rd Rd' : Polynomial) (fuel : nat)
    (st : div_state) :
  poly_div fuel A B (Some Qd) Rd = Ret st -> ret st = 1 ->
  poly_div fuel A B None Rd' = Ret {| ret := 1; Qout := None; Rout := Rout st |}.
Proof.
  unfold poly_div.
  destruct (deg B =? -1).
  { intros [= <-]. simpl. discriminate. }
  simpl option_map. cbv iota.
  destruct (poly_init (deg A)) as [q0|].
  2:{ intros [= <-]. simpl. discriminate. }
  destruct (poly_copy A) as [R0|].
  2:{ intros [= <-]. simpl. discriminate. }
  destruct st as [r Q' R']. simpl. intros Hrun ->.
  exact (div_loop_without_quotient _ B fuel q0 R0 Q' R' Hrun).
Qed.

End Any_arithmetic.

(** ** The further properties, run on the rationals *)

Section More_runs.
Import Examples More_examples.

Lemma run_well_formed' (P : @Polynomial QcDouble) :
  well_formedb P = true -> well_formed P.
Proof. apply well_formedb_correct. Qed.

Lemma run_clean (P : @Polynomial QcDouble) :
  (-1 <=? deg P) = true -> cleanb P = true -> clean P.
Proof. intros H. apply cleanb_correct. apply Z.leb_le. exact H. Qed.

(** [Poly_Resize], at the constant 1 stored under the degree 2. *)
Lemma Poly_Resize_idempotent_witness :
  -1 <= deg padded /\
  (Poly_Resize (Poly_Resize padded) = Poly_Resize padded /\
   (forall k, Poly_GetCoef (Poly_Resize padded) k = Poly_GetCoef padded k) /\
   degree_invariant (Poly_Resize padded)).
Proof.
  assert (H1 : -1 <= deg padded) by (apply Z.leb_le; reflexivity).
  repeat (split; [assumption|]).
  exact (Poly_Resize_idempotent padded H1).
Defined.

(** [poly_set_coef], at the slot 2 of [roomy] set to 3. *)
Lemma poly_set_coef_lookup_witness :
  allocated roomy /\
  clean roomy /\
  (0 <= 2 < Z.of_nat (length (slots roomy))) /\
  ((forall k, Poly_GetCoef (poly_set_coef roomy 2 (C 3 0)) k
              = if k =? 2 then C 3 0 else Poly_GetCoef roomy k) /\
   allocated (poly_set_coef roomy 2 (C 3 0)) /\
   clean (poly_set_coef roomy 2 (C 3 0))).
Proof.
  assert (H1 : allocated roomy) by (split; apply Z.leb_le; reflexivity).
  assert (H2 : clean roomy) by (apply run_clean; reflexivity).
  assert (H3 : 0 <= 2 < Z.of_nat (length (slots roomy))) by (split; [apply Z.leb_le|apply Z.ltb_lt]; reflexivity).
  repeat (split; [assumption|]).
  exact (poly_set_coef_lookup roomy 2 (C 3 0) H1 H2 H3).
Defined.

(** [poly_equal], at [5 + 2X] in a block of three slots and in a block of two. *)
Lemma poly_equal_spec_witness :
  ExactField QcDouble /\
  (poly_equal roomy (of_ints [5; 2]) = true <->
   deg roomy = deg (of_ints [5; 2]) /\
   forall i, 0 <= i <= deg roomy -> coef_at roomy i = coef_at (of_ints [5; 2]) i).
Proof.
  assert (HE : ExactField QcDouble) by (exact QcExact).
  repeat (split; [assumption|]).
  exact (poly_equal_spec roomy (of_ints [5; 2])).
Defined.

(** Equal polynomials, at [5 + 2X] in two blocks and the point [2 + i]. *)
Lemma poly_equal_eval_witness :
  poly_equal roomy (of_ints [5; 2]) = true /\
  poly_eval roomy (C 2 1) = poly_eval (of_ints [5; 2]) (C 2 1).
Proof.
  assert (H1 : poly_equal roomy (of_ints [5; 2]) = true) by (reflexivity).
  repeat (split; [assumption|]).
  exact (poly_equal_eval roomy (of_ints [5; 2]) (C 2 1) H1).
Defined.

(** The value of [poly_neg], at [X^2 - 1] and the point [2 + i]. *)
Lemma poly_eval_neg_witness :
  -1 <= deg X2m1 /\
  (exists N, poly_neg X2m1 = Some N /\
              poly_eval N (C 2 1) = complex_neg (poly_eval X2m1 (C 2 1))).
Proof.
  assert (H1 : -1 <= deg X2m1) by (apply Z.leb_le; reflexivity).
  repeat (split; [assumption|]).
  exact (poly_eval_neg X2m1 (C 2 1) H1).
Defined.

(** [poly_copy], at [5 + 2X] in a block of three slots. *)
Lemma poly_copy_equal_witness :
  allocated roomy /\
  (exists P, poly_copy roomy = Some P /\ poly_equal P roomy = true /\
              Z.of_nat (length (slots P)) = deg roomy + 1 /\
              (deg roomy = -1 -> coef P = None)).
Proof.
  assert (H1 : allocated roomy) by (split; apply Z.leb_le; reflexivity).
  repeat (split; [assumption|]).
  exact (poly_copy_equal roomy H1).
Defined.

(** [poly_neg] twice, at [X^2 - 1]. *)
Lemma poly_neg_involutive_witness :
  -1 <= deg X2m1 /\
  (exists N M, poly_neg X2m1 = Some N /\ poly_neg N = Some M /\
                poly_equal M X2m1 = true).
Proof.
  assert (H1 : -1 <= deg X2m1) by (apply Z.leb_le; reflexivity).
  repeat (split; [assumption|]).
  exact (poly_neg_involutive X2m1 H1).
Defined.

(** [poly_sub], at [X^2 - 1] minus [X - 1]. *)
Lemma poly_sub_is_add_neg_witness :
  -1 <= deg Xm1 /\
  (exists N, poly_neg Xm1 = Some N /\ poly_sub X2m1 Xm1 = poly_add X2m1 N).
Proof.
  assert (H1 : -1 <= deg Xm1) by (apply Z.leb_le; reflexivity).
  repeat (split; [assumption|]).
  exact (poly_sub_is_add_neg X2m1 Xm1 H1).
Defined.

(** [poly_add] of the polynomial of degree -1, at [X^2 - 1]. *)
Lemma poly_add_zero_witness :
  well_formed X2m1 /\
  deg zero = -1 /\
  (exists S, poly_add X2m1 zero = Some S /\ poly_equal S X2m1 = true).
Proof.
  assert (H1 : well_formed X2m1) by (apply run_well_formed'; reflexivity).
  assert (H2 : deg zero = -1) by (reflexivity).
  repeat (split; [assumption|]).
  exact (poly_add_zero X2m1 zero H1 H2).
Defined.

(** [poly_multiply] by the constant one, at [X^2 - 1]. *)
Lemma poly_multiply_one_witness :
  well_formed X2m1 /\
  (exists I M, Poly_InitConst COne = Some I /\ poly_multiply X2m1 I = Some M /\
                poly_equal M X2m1 = true).
Proof.
  assert (H1 : well_formed X2m1) by (apply run_well_formed'; reflexivity).
  repeat (split; [assumption|]).
  exact (poly_multiply_one X2m1 H1).
Defined.

(** [poly_derive], at the constant 1. *)
Lemma poly_derive_constant_witness :
  (-1 <= deg one <= 0) /\
  poly_derive one = Some {| deg := -1; coef := None |}.
Proof.
  assert (H1 : -1 <= deg one <= 0) by (split; apply Z.leb_le; reflexivity).
  repeat (split; [assumption|]).
  exact (poly_derive_constant one H1).
Defined.

(** [poly_derive], at [X^2 - 1]. *)
Lemma poly_derive_coefficients_witness :
  well_formed X2m1 /\
  1 <= deg X2m1 /\
  (exists R, poly_derive X2m1 = Some R /\ well_formed R /\ deg R = deg X2m1 - 1 /\
              forall k, 0 <= k <= deg X2m1 - 1 ->
                coef_at R k = complex_mult {| real := d_of_int (k + 1); imag := d0 |}
                                           (coef_at X2m1 (k + 1))).
Proof.
  assert (H1 : well_formed X2m1) by (apply run_well_formed'; reflexivity).
  assert (H2 : 1 <= deg X2m1) by (apply Z.leb_le; reflexivity).
  repeat (split; [assumption|]).
  exact (poly_derive_coefficients X2m1 H1 H2).
Defined.

(** [poly_pow], at the square of the polynomial of degree -1. *)
Lemma poly_pow_zero_base_witness :
  deg zero = -1 /\
  (2 <= 2)%nat /\
  poly_pow zero 2 = None.
Proof.
  assert (H1 : deg zero = -1) by (reflexivity).
  assert (H2 : (2 <= 2)%nat) by (apply Nat.leb_le; reflexivity).
  repeat (split; [assumption|]).
  exact (poly_pow_zero_base zero 2%nat H1 H2).
Defined.

(** A dividend of smaller degree, at 1 divided by [X]. *)
Lemma poly_div_small_dividend_witness :
  -1 <= deg one /\
  deg one < deg X /\
  (exists q0 R0,
     poly_init (deg one) = Some q0 /\ poly_copy one = Some R0 /\
     poly_div 0 one X (Some stale) stale
       = Ret {| ret := 1; Qout := Some q0; Rout := R0 |} /\
     deg q0 = deg one /\ (forall k, Poly_GetCoef q0 k = CZero) /\
     (0 <= deg one -> poly_equal q0 {| deg := -1; coef := None |} = false)).
Proof.
  assert (H1 : -1 <= deg one) by (apply Z.leb_le; reflexivity).
  assert (H2 : deg one < deg X) by (apply Z.ltb_lt; reflexivity).
  repeat (split; [assumption|]).
  exact (poly_div_small_dividend one X stale stale 0%nat H1 H2).
Defined.

(** A divisor with a zero leading coefficient, at [X^2 - 1] divided by [blank]. *)
Lemma poly_div_zero_leading_witness :
  0 <= deg blank /\
  deg blank <= deg X2m1 /\
  Poly_LeadCoef blank = CZero /\
  poly_div 1 X2m1 blank (Some stale) stale = Indeterminate.
Proof.
  assert (H1 : 0 <= deg blank) by (apply Z.leb_le; reflexivity).
  assert (H2 : deg blank <= deg X2m1) by (apply Z.leb_le; reflexivity).
  assert (H3 : Poly_LeadCoef blank = CZero) by (reflexivity).
  repeat (split; [assumption|]).
  exact (poly_div_zero_leading X2m1 blank (Some stale) stale 0%nat H1 H2 H3).
Defined.

(** [poly_initX], on the rationals. *)
Lemma poly_initX_eval_witness :
  ExactField QcDouble /\
  (exists P, poly_initX = Some P /\ deg P = 1 /\ well_formed P /\
              forall x, poly_eval P x = x).
Proof.
  assert (HE : ExactField QcDouble) by (exact QcExact).
  repeat (split; [assumption|]).
  exact (@poly_initX_eval QcDouble QcExact).
Defined.

End More_runs.

(** ** The code run on binary64 *)

Section Binary64_runs.
Import Binary64_examples.





(** On binary64 the product of [2^-600] and itself, and so the second power
    of [2^-600], is the block of one zero under the degree 0: the product of
    the leading coefficients has underflowed and nothing resizes. *)
Example poly_multiply_underflow :
  well_formedb tiny = true /\
  poly_multiply tiny tiny = Some tiny_square /\
  poly_pow tiny 2 = Some tiny_square /\
  well_formedb tiny_square = false.
Proof. repeat split; reflexivity. Qed.

(** [poly_multiply] at [2^-600] times [2^-600] on binary64. *)
Lemma poly_multiply_block_witness :
  -1 <= deg tiny + deg tiny /\
  exists M, poly_multiply tiny tiny = Some M /\ deg M = deg tiny + deg tiny /\
            Z.of_nat (length (slots M)) = deg tiny + deg tiny + 1.
Proof.
  assert (H : -1 <= deg tiny + deg tiny) by (apply Z.leb_le; reflexivity).
  split; [exact H|].
  destruct (poly_multiply_block tiny tiny) as [_ Hm]. exact (Hm H).
Defined.

(** [poly_pow] at the second power of [2^-600] on binary64. *)
Lemma poly_pow_degree_product_witness :
  0 <= deg tiny /\ (1 <= 2)%nat /\
  exists R, poly_pow tiny 2 = Some R /\ deg R = Z.of_nat 2 * deg tiny.
Proof.
  assert (H : 0 <= deg tiny) by (apply Z.leb_le; reflexivity).
  assert (Hn : (1 <= 2)%nat) by (apply Nat.leb_le; reflexivity).
  split; [exact H|]. split; [exact Hn|].
  exact (poly_pow_degree_product tiny 2 H Hn).
Defined.

(** [poly_div] with [Q == NULL] at [0.1 + 0.7 X] divided by [0.3] on
    binary64. *)
Lemma poly_div_null_quotient_witness :
  poly_div 4 tenth_plus three_tenths (Some stale64) stale64
    = Ret {| ret := 1; Qout := Some tenth_plus_quotient; Rout := zero64 |} /\
  poly_div 4 tenth_plus three_tenths None tenth_plus
    = Ret {| ret := 1; Qout := None; Rout := zero64 |}.
Proof.
  assert (H : poly_div 4 tenth_plus three_tenths (Some stale64) stale64
              = Ret {| ret := 1; Qout := Some tenth_plus_quotient; Rout := zero64 |})
    by reflexivity.
  split; [exact H|].
  exact (poly_div_null_quotient tenth_plus three_tenths stale64 stale64 tenth_plus 4
           _ H eq_refl).
Defined.

(** At binary64 inputs with a subnormal, a rounded and a huge coefficient:
    the sum is the same in either order, the sum with the negation has the
    degree -1, the copy, the negation, the difference and the derivative are
    well formed, and the constant 1 has the value 1 at [2^1000]. *)
Example binary64_operators :
  well_formedb mixed = true /\
  poly_add mixed tenth_plus = poly_add tenth_plus mixed /\
  (exists N S, poly_neg mixed = Some N /\ well_formedb N = true /\
               poly_add mixed N = Some S /\ deg S = -1) /\
  (exists R, poly_copy mixed = Some R /\ well_formedb R = true) /\
  (exists R, poly_sub mixed tenth_plus = Some R /\ well_formedb R = true) /\
  (exists R, poly_derive mixed = Some R /\ well_formedb R = true) /\
  (exists P, Poly_InitConst (F PrimFloat.one) = Some P /\
             poly_eval P far = F PrimFloat.one).
Proof.
  split; [reflexivity|]. split; [reflexivity|].
  split; [eexists; eexists; repeat split; reflexivity|].
  repeat split; eexists; split; reflexivity.
Qed.

End Binary64_runs.
